(** * Partitioning: the tiled world generator and its field pass

    A shallow embedding of [TiledWorldGenerator.h] and
    [TiledWorldGenerator.cpp]: the generator object, world generation, the
    per-pass construction of the partition tree and the field accumulation
    loop of [TiledWorldGenerator::CalculateField].

    [Tile.h], [Node.h] and the vector header are not among the sources.  What
    the generator needs from them is either taken as a parameter (the
    arithmetic of [float], [Vector2f::Magnitude], the contribution formula)
    or modelled from the specification (the partition tree [Node]); every such
    definition says so in its comment. *)

From Stdlib Require Import ZArith Lia Bool List.
From Stdlib Require Import Floats.SpecFloat.
From stdpp Require Import base list numbers strings.

(** ** The C++ [float]

    The generator only adds, subtracts, divides, compares and converts from
    [int].  The operations are an interface, so that the development runs on
    IEEE binary32 ([binary32] below) and on the integers, and a theorem that
    needs a law of the arithmetic names it ([FloatOrder], [FloatHalving]).
    The laws are ones that binary32 has, NaN, the infinities and the two
    zeros included. *)

Class FloatOps (F : Type) := {
  f_zero : F;
  f_add : F -> F -> F;
  f_sub : F -> F -> F;
  f_div : F -> F -> F;
  f_le : F -> F -> bool;
  f_lt : F -> F -> bool;
  f_of_int : Z -> F
}.

(** [a > b] in the source. *)
Definition f_gt {F} `{FloatOps F} (a b : F) : bool := f_lt b a.

(** [a] is a number: it compares with itself, which a NaN does not. *)
Definition f_number {F} `{FloatOps F} (a : F) : bool := f_le a a.

(** The comparisons order the numbers, and hold of nothing but numbers.
    They need not tell the two zeros apart, and a NaN is neither below nor
    above anything.  A theorem that needs this says so by taking a
    [FloatOrder] instance. *)
Class FloatOrder (F : Type) `{FloatOps F} : Prop := {
  f_le_trans : forall a b c, f_le a b = true -> f_le b c = true -> f_le a c = true;
  f_le_numbers : forall a b, f_le a b = true -> f_number a = true /\ f_number b = true;
  f_le_total : forall a b,
    f_number a = true -> f_number b = true -> f_le a b = true \/ f_le b a = true;
  f_lt_le : forall a b, f_lt a b = true -> f_le a b = true;
  f_not_lt_le : forall a b,
    f_number a = true -> f_number b = true -> f_lt a b = false -> f_le b a = true;
  f_zero_number : f_number f_zero = true
}.

(** What the partition tree needs of the arithmetic, to halve a box again
    and again: the half of a number is a number, and when the sum of two
    bounds is a number, so is the sum of either bound and their midpoint.
    (The sum of the two infinities is not a number.) *)
Class FloatHalving (F : Type) `{FloatOps F} : Prop := {
  f_zero_add : forall a, f_number a = true -> f_number (f_add f_zero a) = true;
  f_half_number : forall a, f_number a = true -> f_number (f_div a (f_of_int 2)) = true;
  f_mid_lo : forall lo hi,
    f_number (f_add lo hi) = true ->
    f_number (f_add lo (f_div (f_add lo hi) (f_of_int 2))) = true;
  f_mid_hi : forall lo hi,
    f_number (f_add lo hi) = true ->
    f_number (f_add (f_div (f_add lo hi) (f_of_int 2)) hi) = true
}.

(** IEEE 754 binary32, the [float] of the source: 24 bits of precision,
    exponents up to 128. *)
Definition binary32 : Type := spec_float.

#[export] Instance binary32_ops : FloatOps binary32 := {|
  f_zero := S754_zero false;
  f_add := SFadd 24 128;
  f_sub := SFsub 24 128;
  f_div := SFdiv 24 128;
  f_le := SFleb;
  f_lt := SFltb;
  f_of_int := fun z => binary_normalize 24 128 z 0 false
|}.

(** Exact integer arithmetic, a second carrier on which the laws hold. *)
#[export] Instance Z_ops : FloatOps Z := {|
  f_zero := 0%Z;
  f_add := Z.add;
  f_sub := Z.sub;
  f_div := Z.div;
  f_le := Z.leb;
  f_lt := Z.ltb;
  f_of_int := fun z => z
|}.

(** ** Vectors and boxes *)

Record Vector2f (F : Type) := mkVector2f { X : F; Y : F }.
Arguments mkVector2f {F} _ _.
Arguments X {F} _.
Arguments Y {F} _.

Record AABBf (F : Type) := mkAABBf { boxMin : Vector2f F; boxMax : Vector2f F }.
Arguments mkAABBf {F} _ _.
Arguments boxMin {F} _.
Arguments boxMax {F} _.

Section Vectors.
Context {F : Type} `{FloatOps F}.

(** [Vector2f::Zero] *)
Definition Zero : Vector2f F := mkVector2f f_zero f_zero.

(** [operator+] and [operator+=] *)
Definition vadd (a b : Vector2f F) : Vector2f F :=
  mkVector2f (f_add (X a) (X b)) (f_add (Y a) (Y b)).

(** [operator-] *)
Definition vsub (a b : Vector2f F) : Vector2f F :=
  mkVector2f (f_sub (X a) (X b)) (f_sub (Y a) (Y b)).

(** Modelled from the spec: the point lies in the box, which is closed (the
    box header is not part of the sources). *)
Definition Contains (b : AABBf F) (p : Vector2f F) : bool :=
  f_le (X (boxMin b)) (X p) && f_le (X p) (X (boxMax b)) &&
  f_le (Y (boxMin b)) (Y p) && f_le (Y p) (Y (boxMax b)).

(** Modelled from the spec: two closed boxes meet. *)
Definition Intersects (a b : AABBf F) : bool :=
  f_le (X (boxMin a)) (X (boxMax b)) && f_le (X (boxMin b)) (X (boxMax a)) &&
  f_le (Y (boxMin a)) (Y (boxMax b)) && f_le (Y (boxMin b)) (Y (boxMax a)).
End Vectors.

(** ** Tiles *)

Inductive TileType := ettFree | ettObstructed | ettUndesirable | ettDesirable.

#[export] Instance TileType_eq_dec : EqDecision TileType.
Proof. solve_decision. Defined.

(** [ImColor(r, g, b)] as the three integers it is built from. *)
Definition ImColor : Type := Z * Z * Z.

(** The members of [Tile] that the generator reads and writes ([Type] is
    spelled [Type_]), in the order of the constructor call in
    [GenerateWorld]. *)
Record Tile (F : Type) := mkTile {
  Type_ : TileType;
  Colour : ImColor;
  Location : Vector2f F;
  FieldStrength : F;
  FieldRange : F;
  LocalFieldValue : Vector2f F
}.
Arguments mkTile {F} _ _ _ _ _ _.
Arguments Type_ {F} _.
Arguments Colour {F} _.
Arguments Location {F} _.
Arguments FieldStrength {F} _.
Arguments FieldRange {F} _.
Arguments LocalFieldValue {F} _.

(** [tile->LocalFieldValue = v] *)
Definition setField {F} (t : Tile F) (v : Vector2f F) : Tile F :=
  mkTile (Type_ t) (Colour t) (Location t) (FieldStrength t) (FieldRange t) v.

(** A [Tile*].  [world] owns one allocation per element ([GenerateWorld]
    pushes only [new Tile], [ClearWorld] deletes them all), so a pointer is
    the position of its tile in [world], and [world] itself is the store the
    pointers are read and written through.  Two tiles with equal members at
    different positions are different pointers. *)
Abbreviation TilePtr := nat (only parsing).

Module AvailableTile.
Record t (F : Type) := mk {
  Frequency : Z;
  Threshold : F;
  Name : string;
  Colour : ImColor;
  Type_ : TileType;
  FieldStrength : F;
  FieldRange : F
}.
Arguments mk {F} _ _ _ _ _ _ _.
Arguments Frequency {F} _.
Arguments Threshold {F} _.
Arguments Name {F} _.
Arguments Colour {F} _.
Arguments Type_ {F} _.
Arguments FieldStrength {F} _.
Arguments FieldRange {F} _.

(** [tilePtr->Threshold = v] *)
Definition setThreshold {F} (a : t F) (v : F) : t F :=
  mk (Frequency a) v (Name a) (Colour a) (Type_ a) (FieldStrength a) (FieldRange a).
End AvailableTile.

(** ** The partition tree *)

(** Modelled from the spec: [Node] ([Node.h] is not part of the sources).
    §3 and §9 describe a node as a tagged variant, a leaf holding object
    references or an internal node with exactly four quadrant children, with
    its bounding box and its depth.  The parent back-link is never read and is
    the position of the node in the tree. *)
Inductive Node (F : Type) :=
| Leaf (bounds : AABBf F) (depth : nat) (contents : list TilePtr)
| Quad (bounds : AABBf F) (depth : nat) (c0 c1 c2 c3 : Node F).
Arguments Leaf {F} _ _ _.
Arguments Quad {F} _ _ _ _ _ _.

Section Index.
Context {F : Type} `{FloatOps F}.

(** The configuration of §6: split threshold, minimum splittable box size
    and maximum depth. *)
Variable SplitThreshold : nat.
Variable MinimumSize : F.
Variable MaximumDepth : nat.

(** Modelled from the spec: the bounding box of a node. *)
Definition Bounds (n : Node F) : AABBf F :=
  match n with Leaf b _ _ => b | Quad b _ _ _ _ _ => b end.

(** Modelled from the spec: the bounding box of an object, its position
    extended by its range on both axes (the [boundingBox] that
    [CalculateField] computes at lines 79-81). *)
Definition TileBounds (t : Tile F) : AABBf F :=
  let boxSize := mkVector2f (FieldRange t) (FieldRange t) in
  mkAABBf (vsub (Location t) boxSize) (vadd (Location t) boxSize).

(** Modelled from the spec: the point where the four equal quadrants of a
    box meet. *)
Definition Centre (b : AABBf F) : Vector2f F :=
  mkVector2f (f_div (f_add (X (boxMin b)) (X (boxMax b))) (f_of_int 2))
             (f_div (f_add (Y (boxMin b)) (Y (boxMax b))) (f_of_int 2)).

(** Modelled from the spec: the four equal quadrants of a box.  The
    quadrant at the corner [boxMin]. *)
Definition Quadrant0 (b : AABBf F) : AABBf F := mkAABBf (boxMin b) (Centre b).

(** Modelled from the spec: the quadrant beside [Quadrant0] along X. *)
Definition Quadrant1 (b : AABBf F) : AABBf F :=
  mkAABBf (mkVector2f (X (Centre b)) (Y (boxMin b)))
          (mkVector2f (X (boxMax b)) (Y (Centre b))).

(** Modelled from the spec: the quadrant beside [Quadrant0] along Y. *)
Definition Quadrant2 (b : AABBf F) : AABBf F :=
  mkAABBf (mkVector2f (X (boxMin b)) (Y (Centre b)))
          (mkVector2f (X (Centre b)) (Y (boxMax b))).

(** Modelled from the spec: the quadrant at the corner [boxMax]. *)
Definition Quadrant3 (b : AABBf F) : AABBf F := mkAABBf (Centre b) (boxMax b).

(** Modelled from the spec: "create 4 equal-quadrant children (same
    depth+1, parent = this node)", all empty. *)
Definition Split (b : AABBf F) (d : nat) : Node F * Node F * Node F * Node F :=
  (Leaf (Quadrant0 b) (S d) [], Leaf (Quadrant1 b) (S d) [],
   Leaf (Quadrant2 b) (S d) [], Leaf (Quadrant3 b) (S d) []).

(** Modelled from the spec: the split condition, "content count >
    threshold AND box size > minimum" on both axes, and never at the maximum
    depth ("splitting must stop past a maximum depth"). *)
Definition ShouldSplit (b : AABBf F) (d : nat) (cs : list TilePtr) : bool :=
  (SplitThreshold <? length cs)%nat &&
  f_gt (f_sub (X (boxMax b)) (X (boxMin b))) MinimumSize &&
  f_gt (f_sub (Y (boxMax b)) (Y (boxMin b))) MinimumSize &&
  (d <? MaximumDepth)%nat.

(** Modelled from the spec: the object's box meets the node's box.  A
    pointer that is not a tile of [w] meets nothing. *)
Definition Overlaps (w : list (Tile F)) (n : Node F) (p : TilePtr) : bool :=
  match w !! p with
  | Some t => Intersects (Bounds n) (TileBounds t)
  | None => false
  end.

(** Modelled from the spec: "assign the object to every child whose box
    intersects the object's bounding box" and "recurse Insert into each
    such child". *)
Definition AddToChild (add : Node F -> TilePtr -> Node F)
    (w : list (Tile F)) (c : Node F) (p : TilePtr) : Node F :=
  if Overlaps w c p then add c p else c.

(** Modelled from the spec: the same for each of the four children. *)
Definition AddToChildren (add : Node F -> TilePtr -> Node F)
    (w : list (Tile F)) (cs : Node F * Node F * Node F * Node F) (p : TilePtr)
    : Node F * Node F * Node F * Node F :=
  let '(c0, c1, c2, c3) := cs in
  (AddToChild add w c0 p, AddToChild add w c1 p,
   AddToChild add w c2 p, AddToChild add w c3 p).

(** Modelled from the spec: [Node::AddObject] (§4.1 Insert, and the
    process comment at lines 31-43 of the source).  A split puts the objects
    of the leaf into fresh children, which may split in turn; each such
    nested split uses one unit of [fuel].  A leaf splits only below
    [MaximumDepth], so [MaximumDepth] units are never used up
    ([AddObject_fuel]). *)
Fixpoint AddObject_rec (fuel : nat) (w : list (Tile F))
    : Node F -> TilePtr -> Node F :=
  fix add (n : Node F) (p : TilePtr) {struct n} : Node F :=
    match n with
    | Quad b d c0 c1 c2 c3 =>
        Quad b d (AddToChild add w c0 p) (AddToChild add w c1 p)
                 (AddToChild add w c2 p) (AddToChild add w c3 p)
    | Leaf b d cs =>
        let cs' := cs ++ [p] in
        if ShouldSplit b d cs' then
          match fuel with
          | O => Leaf b d cs'
          | S fuel' =>
              let '(c0, c1, c2, c3) :=
                fold_left (AddToChildren (AddObject_rec fuel' w) w) cs' (Split b d) in
              Quad b d c0 c1 c2 c3
          end
        else Leaf b d cs'
    end.

(** Modelled from the spec: [Node::AddObject] with the fuel that is enough. *)
Definition AddObject (w : list (Tile F)) (n : Node F) (p : TilePtr) : Node F :=
  AddObject_rec MaximumDepth w n p.

(** Modelled from the spec: [Node::FindTiles] (§4.1 Query).  A leaf
    returns its contents; an internal node descends into one child whose
    box contains the point.  The tie-break for a point on a shared edge is
    the first child in quadrant order; a point in no child, which is a
    point outside the node, finds nothing. *)
Fixpoint FindTiles (n : Node F) (point : Vector2f F) : list TilePtr :=
  match n with
  | Leaf _ _ cs => cs
  | Quad _ _ c0 c1 c2 c3 =>
      if Contains (Bounds c0) point then FindTiles c0 point
      else if Contains (Bounds c1) point then FindTiles c1 point
      else if Contains (Bounds c2) point then FindTiles c2 point
      else if Contains (Bounds c3) point then FindTiles c3 point
      else []
  end.
End Index.

(** ** The generator *)

(** The data members of [TiledWorldGenerator].  [rootNode] is a raw pointer
    that the constructor leaves uninitialised: [None] is that indeterminate
    pointer, which must not be dereferenced. *)
Record TiledWorldGenerator (F : Type) := mkGenerator {
  Length : Z;
  Width : Z;
  TilePalette : list (AvailableTile.t F);
  rootNode : option (Node F);
  world : list (Tile F);
  largestFieldStrength : F;
  ShowField : bool
}.
Arguments mkGenerator {F} _ _ _ _ _ _ _.
Arguments Length {F} _.
Arguments Width {F} _.
Arguments TilePalette {F} _.
Arguments rootNode {F} _.
Arguments world {F} _.
Arguments largestFieldStrength {F} _.
Arguments ShowField {F} _.

(** The calls that [CalculateField] makes on the partition tree, in the
    order it makes them. *)
Inductive IndexCall (F : Type) :=
| CallNew (boxMin boxMax : Vector2f F) (parent : option (Node F)) (depth : nat)
| CallAddObject (tile : TilePtr)
| CallFindTiles (point : Vector2f F).
Arguments CallNew {F} _ _ _ _.
Arguments CallAddObject {F} _.
Arguments CallFindTiles {F} _.

(** The C library generator behind [rand()]: the values it is still to
    return, each between 0 and [RAND_MAX]. *)
Definition RandState : Type := nat -> nat.

Definition rand (s : RandState) : Z * RandState :=
  (Z.of_nat (s 0%nat), fun n => s (S n)).

Section Generator.
Context {F : Type} `{FloatOps F}.

Variable SplitThreshold : nat.
Variable MinimumSize : F.
Variable MaximumDepth : nat.

(** [Vector2f::Magnitude], from the vector header, which is not part of
    the sources. *)
Variable Magnitude : Vector2f F -> F.

(** The contribution formula of §4.2, "an external, pluggable function" of
    the strength and range of the candidate and of the displacement. *)
Variable FieldFormula : F -> F -> Vector2f F -> Vector2f F.

(** Modelled from the spec: [Tile::CalculateFieldTo] ([Tile.h] is not part
    of the sources) computes "a pairwise contribution vector using the
    candidate's influence parameters (strength, range) and the displacement
    from candidate to the target object". *)
Definition CalculateFieldTo (other target : Tile F) : Vector2f F :=
  FieldFormula (FieldStrength other) (FieldRange other)
               (vsub (Location target) (Location other)).

(** Modelled from the spec: the constructor of [Tile] ([Tile.h] is not part
    of the sources) takes the five arguments of the call at lines 218-220;
    the field of a new tile is in its "default/zero state". *)
Definition NewTile (type : TileType) (colour : ImColor) (location : Vector2f F)
    (fieldStrength fieldRange : F) : Tile F :=
  mkTile type colour location fieldStrength fieldRange Zero.

(** The constructor: the dimensions and the four palette entries.  The
    members it does not initialise ([Threshold] of each entry and
    [largestFieldStrength]) hold the value [indeterminate]. *)
Definition NewGenerator (indeterminate : F) : TiledWorldGenerator F :=
  mkGenerator 120 120
    [ AvailableTile.mk 85 indeterminate "Free" (121, 255, 116)%Z ettFree
        (f_of_int 0) (f_of_int 0);
      AvailableTile.mk 10 indeterminate "Obstructed" (81, 0, 0)%Z ettObstructed
        (f_of_int 4) (f_of_int 5);
      AvailableTile.mk 4 indeterminate "Undesirable" (255, 127, 39)%Z ettUndesirable
        (f_of_int 3) (f_of_int 10);
      AvailableTile.mk 1 indeterminate "Desirable" (0, 81, 0)%Z ettDesirable
        (f_of_int (-10)) (f_of_int 60) ]
    None [] indeterminate false.

(** Assignments to the members [TilePalette] and [world]. *)
Definition setPalette (g : TiledWorldGenerator F) (p : list (AvailableTile.t F)) :=
  mkGenerator (Length g) (Width g) p (rootNode g) (world g)
              (largestFieldStrength g) (ShowField g).

Definition setWorld (g : TiledWorldGenerator F) (w : list (Tile F)) :=
  mkGenerator (Length g) (Width g) (TilePalette g) (rootNode g) w
              (largestFieldStrength g) (ShowField g).

(** The second loop of [NormaliseProbabilities]. *)
Fixpoint SetThresholds (frequencySum : Z) (currentThreshold : F)
    (palette : list (AvailableTile.t F)) : list (AvailableTile.t F) :=
  match palette with
  | [] => []
  | tile :: rest =>
      let currentThreshold' :=
        f_add currentThreshold
              (f_div (f_of_int (AvailableTile.Frequency tile)) (f_of_int frequencySum)) in
      AvailableTile.setThreshold tile currentThreshold'
        :: SetThresholds frequencySum currentThreshold' rest
  end.

(** [NormaliseProbabilities]: the sum of the frequencies, then the
    running thresholds.  The sum is the sum of the integers, which the
    [int] sum of the source is as long as it stays an [int]. *)
Definition NormaliseProbabilities (g : TiledWorldGenerator F) : TiledWorldGenerator F :=
  let frequencySum :=
    fold_left (fun sum tile => (sum + AvailableTile.Frequency tile)%Z) (TilePalette g) 0%Z in
  setPalette g (SetThresholds frequencySum f_zero (TilePalette g)).

(** Every tile is deleted and the vector emptied. *)
Definition ClearWorld (g : TiledWorldGenerator F) : TiledWorldGenerator F :=
  setWorld g [].

(** The body of the inner loop of [GenerateWorld]: one tile at
    ([lengthIndex], [widthIndex]).  [first] is [TilePalette[0]], there
    because the palette is not empty. *)
Definition GenerateTile (palette : list (AvailableTile.t F)) (first : AvailableTile.t F)
    (lengthIndex widthIndex : nat) (acc : list (Tile F) * RandState)
    : list (Tile F) * RandState :=
  let '(w, s) := acc in
  let '(r, s1) := rand s in
  let roll := f_div (f_of_int (Z.rem r 101)) (f_of_int 100) in
  let '(referenceTile, s2) :=
    match find (fun tile => f_le roll (AvailableTile.Threshold tile)) palette with
    | Some tile => (tile, s1)
    | None =>
        let '(r', s') := rand s1 in
        (nth (Z.to_nat (Z.rem r' (Z.of_nat (length palette)))) palette first, s')
    end in
  (w ++ [NewTile (AvailableTile.Type_ referenceTile) (AvailableTile.Colour referenceTile)
                 (mkVector2f (f_of_int (Z.of_nat lengthIndex))
                             (f_of_int (Z.of_nat widthIndex)))
                 (AvailableTile.FieldStrength referenceTile)
                 (AvailableTile.FieldRange referenceTile)],
   s2).

(** [GenerateWorld]: nothing with an empty palette, else one tile for
    each turn of the two loops pushed on the world.  [reserve] has no effect
    on the world where it returns; it does not return for a product
    [Length * Width] that is negative, which this definition does not
    follow ([Reservable] below names the dimensions for which it does). *)
Definition GenerateWorld (g : TiledWorldGenerator F) (s : RandState)
    : TiledWorldGenerator F * RandState :=
  match TilePalette g with
  | [] => (g, s)
  | first :: _ =>
      let '(w, s') :=
        fold_left
          (fun acc lengthIndex =>
             fold_left (fun acc' widthIndex =>
                          GenerateTile (TilePalette g) first lengthIndex widthIndex acc')
                       (seq 0 (Z.to_nat (Width g))) acc)
          (seq 0 (Z.to_nat (Length g))) (world g, s) in
      (setWorld g w, s')
  end.

(** [Generate] *)
Definition Generate (g : TiledWorldGenerator F) (s : RandState)
    : TiledWorldGenerator F * RandState :=
  GenerateWorld (ClearWorld (NormaliseProbabilities g)) s.

(** The body of the loop at lines 92-99: one candidate. *)
Definition Accumulate (currentTilePtr : TilePtr) (w : list (Tile F))
    (otherTilePtr : TilePtr) : list (Tile F) :=
  if decide (otherTilePtr = currentTilePtr) then w
  else
    match w !! otherTilePtr, w !! currentTilePtr with
    | Some other, Some current =>
        <[currentTilePtr :=
            setField current
              (vadd (LocalFieldValue current) (CalculateFieldTo other current))]> w
    | _, _ => w
    end.

(** The body of the loop at lines 74-105: one tile of the world.  The
    state is the store of tiles, [largestFieldStrength] and the calls made
    on the tree so far.  [boxSize] and [boundingBox] are computed and never
    used. *)
Definition FieldStep (root : Node F)
    (st : list (Tile F) * F * list (IndexCall F)) (currentTilePtr : TilePtr)
    : list (Tile F) * F * list (IndexCall F) :=
  let '(w, largest, calls) := st in
  match w !! currentTilePtr with
  | None => st
  | Some current =>
      let w1 := <[currentTilePtr := setField current Zero]> w in
      if decide (Type_ current = ettObstructed) then (w1, largest, calls)
      else
        let w2 := fold_left (Accumulate currentTilePtr)
                            (FindTiles root (Location current)) w1 in
        match w2 !! currentTilePtr with
        | None => (w2, largest, calls ++ [CallFindTiles (Location current)])
        | Some current' =>
            let fieldStrength := Magnitude (LocalFieldValue current') in
            (w2,
             if f_gt fieldStrength largest then fieldStrength else largest,
             calls ++ [CallFindTiles (Location current)])
        end
  end.

(** The box from [Vector2f::Zero] to [Vector2f(Length, Width)]. *)
Definition WorldBounds (g : TiledWorldGenerator F) : AABBf F :=
  mkAABBf Zero (mkVector2f (f_of_int (Length g)) (f_of_int (Width g))).

(** The pointers held by [world], in order. *)
Definition Pointers (w : list (Tile F)) : list TilePtr := seq 0 (length w).

(** The loop at lines 68-71. *)
Definition BuildStep (w : list (Tile F))
    (st : Node F * list (IndexCall F)) (tile : TilePtr) : Node F * list (IndexCall F) :=
  (AddObject SplitThreshold MinimumSize MaximumDepth w (fst st) tile,
   snd st ++ [CallAddObject tile]).

(** [TiledWorldGenerator::CalculateField], with the calls it makes on the
    tree. *)
Definition CalculateField_calls (g : TiledWorldGenerator F)
    : TiledWorldGenerator F * list (IndexCall F) :=
  let worldBounds := WorldBounds g in
  let '(root, calls) :=
    fold_left (BuildStep (world g)) (Pointers (world g))
      (Leaf worldBounds 0 [],
       [CallNew (boxMin worldBounds) (boxMax worldBounds) None 0]) in
  let '(w, largest, calls') :=
    fold_left (FieldStep root) (Pointers (world g)) (world g, f_zero, calls) in
  (mkGenerator (Length g) (Width g) (TilePalette g) (Some root) w largest (ShowField g),
   calls').

(** [TiledWorldGenerator::CalculateField] *)
Definition CalculateField (g : TiledWorldGenerator F) : TiledWorldGenerator F :=
  fst (CalculateField_calls g).

(** [TiledWorldGenerator::ReturnSelectedNode]: [None] when it dereferences
    the uninitialised [rootNode]. *)
Definition ReturnSelectedNode (g : TiledWorldGenerator F) (target : Vector2f F)
    : option (list TilePtr) :=
  match rootNode g with
  | Some root => Some (FindTiles root target)
  | None => None
  end.
End Generator.

(** ** Drawing *)

(** What [DrawWorld] needs of [float] beyond [FloatOps]: the product, the
    constant [0.5f], and the conversion [(int) x], which is undefined
    ([None]) where the truncated value is not an [int]. *)
Class DrawOps (F : Type) := {
  f_mul : F -> F -> F;
  f_half : F;
  f_to_int : F -> option Z
}.

(** [(int) x] in binary32: the value with its fraction discarded, as long
    as it is an [int]; undefined for larger values, infinities and NaN. *)
Definition SFto_int (x : binary32) : option Z :=
  match x with
  | S754_zero _ => Some 0%Z
  | S754_finite s m e =>
      let magnitude := Z.shiftl (Z.pos m) e in
      let z := if s then (- magnitude)%Z else magnitude in
      if ((-2147483648 <=? z) && (z <=? 2147483647))%Z then Some z else None
  | S754_infinity _ | S754_nan => None
  end.

#[export] Instance binary32_draw : DrawOps binary32 := {|
  f_mul := SFmul 24 128;
  f_half := S754_finite false 8388608 (-24);
  f_to_int := SFto_int
|}.

Module ImVec2.
Record t (F : Type) := mk { x : F; y : F }.
Arguments mk {F} _ _.
Arguments x {F} _.
Arguments y {F} _.
End ImVec2.

(** What [DrawWorld] reads of the current ImGui window: [GetWindowSize()],
    [GetWindowPos()] and [TitleBarHeight()]. *)
Record Window (F : Type) := mkWindow {
  WindowSize : ImVec2.t F;
  WindowPos : ImVec2.t F;
  TitleBarHeight : F
}.
Arguments mkWindow {F} _ _ _.
Arguments WindowSize {F} _.
Arguments WindowPos {F} _.
Arguments TitleBarHeight {F} _.

(** The colour handed to [AddRectFilled]: the [ImColor] of a tile, or the
    [ImColor(float, float, float)] made of its field. *)
Inductive Paint (F : Type) :=
| PaletteColour (colour : ImColor)
| FieldColour (r g b : F).
Arguments PaletteColour {F} _.
Arguments FieldColour {F} _ _ _.

(** A call [AddRectFilled(p_min, p_max, col)] on the draw list of the
    window. *)
Record RectFilled (F : Type) := mkRectFilled {
  p_min : ImVec2.t F;
  p_max : ImVec2.t F;
  col : Paint F
}.
Arguments mkRectFilled {F} _ _ _.
Arguments p_min {F} _.
Arguments p_max {F} _.
Arguments col {F} _.

Section Drawing.
Context {F : Type} `{FloatOps F} `{DrawOps F}.

(** [Vector2f::Normalised], from the vector header, which is not part of
    the sources. *)
Variable Normalised : Vector2f F -> Vector2f F.

Definition WindowBuffer : F := f_of_int 5.
Definition CellBorder : F := f_of_int 1.

(** [std::min(a, b)]: [b] when [b < a], else [a]. *)
Definition std_min (a b : F) : F := if f_lt b a then b else a.

(** [cellSize], line 119. *)
Definition CellSize (window : Window F) (g : TiledWorldGenerator F) : option Z :=
  f_to_int
    (std_min
       (f_div (f_sub (ImVec2.x (WindowSize window)) (f_mul WindowBuffer (f_of_int 2)))
              (f_of_int (Length g)))
       (f_div (f_sub (f_sub (ImVec2.y (WindowSize window)) (TitleBarHeight window))
                     (f_mul WindowBuffer (f_of_int 2)))
              (f_of_int (Width g)))).

(** [startPoint], lines 125-127. *)
Definition StartPoint (window : Window F) : ImVec2.t F :=
  ImVec2.mk (f_add (ImVec2.x (WindowPos window)) WindowBuffer)
            (f_add (ImVec2.y (WindowPos window)) (f_add (TitleBarHeight window) WindowBuffer)).

(** The body of the loop at lines 130-152: the rectangle of one tile. *)
Definition DrawTile (g : TiledWorldGenerator F) (cellSize : Z) (startPoint : ImVec2.t F)
    (tile : Tile F) : RectFilled F :=
  let location :=
    ImVec2.mk (f_add (f_mul (X (Location tile)) (f_of_int cellSize)) (ImVec2.x startPoint))
              (f_add (f_mul (Y (Location tile)) (f_of_int cellSize)) (ImVec2.y startPoint)) in
  let workingColour :=
    if ShowField g && f_gt (largestFieldStrength g) f_zero then
      let localField := Normalised (LocalFieldValue tile) in
      FieldColour (f_add f_half (f_div (X localField) (f_of_int 2)))
                  (f_add f_half (f_div (Y localField) (f_of_int 2)))
                  f_zero
    else PaletteColour (Colour tile) in
  mkRectFilled
    (ImVec2.mk (f_add (ImVec2.x location) CellBorder) (f_add (ImVec2.y location) CellBorder))
    (ImVec2.mk (f_sub (f_add (ImVec2.x location) (f_of_int cellSize))
                      (f_mul CellBorder (f_of_int 2)))
               (f_sub (f_add (ImVec2.y location) (f_of_int cellSize))
                      (f_mul CellBorder (f_of_int 2))))
    workingColour.

(** [TiledWorldGenerator::DrawWorld]: the rectangles it adds to the draw
    list of the window, in order; [None] where the conversion of the cell
    size is undefined.  It writes no member of the generator. *)
Definition DrawWorld (window : Window F) (g : TiledWorldGenerator F)
    : option (list (RectFilled F)) :=
  if decide (length (world g) = 0%nat) then Some []
  else
    match CellSize window g with
    | Some cellSize => Some (DrawTile g cellSize (StartPoint window) <$> world g)
    | None => None
    end.

End Drawing.

(** * The vocabulary of the statements *)

(** ** Trees *)

Section TreeVocabulary.
Context {F : Type} `{FloatOps F}.

Definition ChildBounds (cs : Node F * Node F * Node F * Node F)
    : AABBf F * AABBf F * AABBf F * AABBf F :=
  let '(c0, c1, c2, c3) := cs in (Bounds c0, Bounds c1, Bounds c2, Bounds c3).

(** The children of every internal node are the four quadrants of its box. *)
Fixpoint WellFormed (n : Node F) : Prop :=
  match n with
  | Leaf _ _ _ => True
  | Quad b _ c0 c1 c2 c3 =>
      ChildBounds (c0, c1, c2, c3) =
        (Quadrant0 b, Quadrant1 b, Quadrant2 b, Quadrant3 b) /\
      WellFormed c0 /\ WellFormed c1 /\ WellFormed c2 /\ WellFormed c3
  end.

Definition ChildrenWellFormed (cs : Node F * Node F * Node F * Node F) : Prop :=
  let '(c0, c1, c2, c3) := cs in
  WellFormed c0 /\ WellFormed c1 /\ WellFormed c2 /\ WellFormed c3.

(** Every pointer under the node. *)
Fixpoint Members (n : Node F) : list TilePtr :=
  match n with
  | Leaf _ _ cs => cs
  | Quad _ _ c0 c1 c2 c3 => Members c0 ++ Members c1 ++ Members c2 ++ Members c3
  end.

Definition ChildrenMembers (cs : Node F * Node F * Node F * Node F) : list TilePtr :=
  let '(c0, c1, c2, c3) := cs in Members c0 ++ Members c1 ++ Members c2 ++ Members c3.

(** What an insertion function may put under a node. *)
Definition AddsOnly (add : Node F -> TilePtr -> Node F) : Prop :=
  forall n p q, In q (Members (add n p)) -> q = p \/ In q (Members n).

(** Every leaf under the node is at depth [k] or deeper. *)
Fixpoint Deep (k : nat) (n : Node F) : Prop :=
  match n with
  | Leaf _ d _ => k <= d
  | Quad _ _ c0 c1 c2 c3 => Deep k c0 /\ Deep k c1 /\ Deep k c2 /\ Deep k c3
  end.

Definition ChildrenDeep (k : nat) (cs : Node F * Node F * Node F * Node F) : Prop :=
  let '(c0, c1, c2, c3) := cs in Deep k c0 /\ Deep k c1 /\ Deep k c2 /\ Deep k c3.

(** The box can be halved: on both axes the sum of its bounds is a number. *)
Definition Halvable (b : AABBf F) : Prop :=
  f_number (f_add (X (boxMin b)) (X (boxMax b))) = true /\
  f_number (f_add (Y (boxMin b)) (Y (boxMax b))) = true.

Variable w : list (Tile F).

(** The object is in every leaf under [n] that its box reaches. *)
Fixpoint Holds (n : Node F) (p : TilePtr) : Prop :=
  match n with
  | Leaf _ _ cs => In p cs
  | Quad _ _ c0 c1 c2 c3 =>
      (Overlaps w c0 p = true -> Holds c0 p) /\ (Overlaps w c1 p = true -> Holds c1 p) /\
      (Overlaps w c2 p = true -> Holds c2 p) /\ (Overlaps w c3 p = true -> Holds c3 p)
  end.

Definition ChildrenHold (cs : Node F * Node F * Node F * Node F) (p : TilePtr) : Prop :=
  let '(c0, c1, c2, c3) := cs in
  (Overlaps w c0 p = true -> Holds c0 p) /\ (Overlaps w c1 p = true -> Holds c1 p) /\
  (Overlaps w c2 p = true -> Holds c2 p) /\ (Overlaps w c3 p = true -> Holds c3 p).

(** What an insertion function must do for [Holds]. *)
Definition Keeps (add : Node F -> TilePtr -> Node F) : Prop :=
  forall n q, Bounds (add n q) = Bounds n /\ Holds (add n q) q /\
              (forall r, Holds n r -> Holds (add n q) r).

End TreeVocabulary.

(** ** Passes *)

Section PassVocabulary.
Context {F : Type} `{FloatOps F}.
Variable SplitThreshold : nat.
Variable MinimumSize : F.
Variable MaximumDepth : nat.
Variable Magnitude : Vector2f F -> F.
Variable FieldFormula : F -> F -> Vector2f F -> Vector2f F.

Local Abbreviation Add := (AddObject SplitThreshold MinimumSize MaximumDepth).
Local Abbreviation To := (CalculateFieldTo FieldFormula).

(** The members a pass never writes: the tile with its field cleared. *)
Definition Clear (t : Tile F) : Tile F := setField t Zero.

(** Two stores hold the same tiles, with possibly different fields. *)
Definition SameTiles (w w0 : list (Tile F)) : Prop := Clear <$> w = Clear <$> w0.

(** The tree that a pass builds from the world. *)
Definition BuiltTree (g : TiledWorldGenerator F) : Node F :=
  fold_left (Add (world g)) (Pointers (world g)) (Leaf (WorldBounds g) 0 []).

(** The candidates that a pass looks at for a tile, and the ones it adds a
    contribution for. *)
Definition Candidates (g : TiledWorldGenerator F) (t : Tile F) : list TilePtr :=
  FindTiles (BuiltTree g) (Location t).

Definition Contributors (g : TiledWorldGenerator F) (cur : TilePtr) (t : Tile F)
    : list TilePtr :=
  filter (fun q => q <> cur) (Candidates g t).

(** One turn of the accumulation: the field so far and a candidate. *)
Definition AddContribution (w : list (Tile F)) (cur : TilePtr) (t : Tile F)
    (acc : Vector2f F) (q : TilePtr) : Vector2f F :=
  if decide (q = cur) then acc
  else match w !! q with
       | Some other => vadd acc (To other t)
       | None => acc
       end.

(** The field that a pass over the tree [root] computes for tile [cur]. *)
Definition FieldOf (root : Node F) (w : list (Tile F)) (cur : TilePtr) (t : Tile F)
    : Vector2f F :=
  fold_left (AddContribution w cur t) (FindTiles root (Location t)) Zero.

(** The tile after the pass. *)
Definition Settled (root : Node F) (w : list (Tile F)) (cur : TilePtr) (t : Tile F)
    : Tile F :=
  setField t (if decide (Type_ t = ettObstructed) then Zero else FieldOf root w cur t).

(** [if (fieldStrength > largestFieldStrength) largestFieldStrength = fieldStrength] *)
Definition Track (largest fieldStrength : F) : F :=
  if f_gt fieldStrength largest then fieldStrength else largest.

(** The field strength that tile [cur] is tracked with, if it is. *)
Definition Strength (root : Node F) (w : list (Tile F)) (cur : TilePtr) : list F :=
  match w !! cur with
  | Some t => if decide (Type_ t = ettObstructed) then []
              else [Magnitude (FieldOf root w cur t)]
  | None => []
  end.

(** The point that the tree is asked for on behalf of tile [cur], if it is. *)
Definition Query (w : list (Tile F)) (cur : TilePtr) : list (Vector2f F) :=
  match w !! cur with
  | Some t => if decide (Type_ t = ettObstructed) then [] else [Location t]
  | None => []
  end.

(** The contribution vectors that a pass adds up for tile [cur], in order. *)
Definition Contributions (g : TiledWorldGenerator F) (cur : TilePtr) (t : Tile F)
    : list (Vector2f F) :=
  omap (fun q => (fun other => To other t) <$> world g !! q) (Contributors g cur t).

(** The points that a pass asks the tree for, in order. *)
Definition Queries (g : TiledWorldGenerator F) : list (Vector2f F) :=
  flat_map (Query (world g)) (Pointers (world g)).


(** The tile sits on a cell of the grid of [g]. *)
Definition OnGrid (g : TiledWorldGenerator F) (t : Tile F) : Prop :=
  exists lengthIndex widthIndex : Z,
    (0 <= lengthIndex < Length g)%Z /\ (0 <= widthIndex < Width g)%Z /\
    Location t = mkVector2f (f_of_int lengthIndex) (f_of_int widthIndex).


(** What a client does with a generator between its construction and a call
    of [ReturnSelectedNode]: it calls [Generate] (the C library generator
    being in state [s]) and [CalculateField], and assigns the public
    members [Length], [Width] and [ShowField].  [DrawWorld] only reads the
    generator.  A client that assigns [rootNode] itself is not considered. *)
Inductive Operation :=
| CallGenerate (s : RandState)
| CallCalculateField
| AssignSize (length width : Z)
| AssignShowField (show : bool).

Definition Perform (g : TiledWorldGenerator F) (op : Operation) : TiledWorldGenerator F :=
  match op with
  | CallGenerate s => fst (Generate g s)
  | CallCalculateField =>
      CalculateField SplitThreshold MinimumSize MaximumDepth Magnitude FieldFormula g
  | AssignSize l wd =>
      mkGenerator l wd (TilePalette g) (rootNode g) (world g)
                  (largestFieldStrength g) (ShowField g)
  | AssignShowField b =>
      mkGenerator (Length g) (Width g) (TilePalette g) (rootNode g) (world g)
                  (largestFieldStrength g) b
  end.

Definition Lifetime (indeterminate : F) (ops : list Operation) : TiledWorldGenerator F :=
  fold_left Perform ops (NewGenerator indeterminate).

End PassVocabulary.

(** ** Generation *)

Section GenerationVocabulary.
Context {F : Type} `{FloatOps F}.

(** The dimensions that [GenerateWorld] can reserve for: [Length * Width]
    is an [int] and, as the argument of [reserve], not negative. *)
Definition Reservable (g : TiledWorldGenerator F) : Prop :=
  (0 <= Length g * Width g <= 2147483647)%Z.

(** [(float)(r % 101) / 100.0f], the roll made of the random number [r]. *)
Definition Roll (r : Z) : F := f_div (f_of_int (Z.rem r 101)) (f_of_int 100).

(** The palette entry that the loop at lines 206-213 selects for a roll. *)
Definition Selected (palette : list (AvailableTile.t F)) (roll : F)
    : option (AvailableTile.t F) :=
  find (fun tile => f_le roll (AvailableTile.Threshold tile)) palette.

(** The tile that lines 218-220 make of a palette entry at a cell. *)
Definition TileOf (a : AvailableTile.t F) (lengthIndex widthIndex : nat) : Tile F :=
  NewTile (AvailableTile.Type_ a) (AvailableTile.Colour a)
          (mkVector2f (f_of_int (Z.of_nat lengthIndex)) (f_of_int (Z.of_nat widthIndex)))
          (AvailableTile.FieldStrength a) (AvailableTile.FieldRange a).

(** The members that a tile takes from a palette entry. *)
Definition CopyOf (a : AvailableTile.t F) (t : Tile F) : Prop :=
  Type_ t = AvailableTile.Type_ a /\ Colour t = AvailableTile.Colour a /\
  FieldStrength t = AvailableTile.FieldStrength a /\
  FieldRange t = AvailableTile.FieldRange a.

(** The cells of the grid in the order of the loops of [GenerateWorld]. *)
Definition Cells (length width : nat) : list (nat * nat) :=
  flat_map (fun lengthIndex => pair lengthIndex <$> seq 0 width) (seq 0 length).

(** [s'] is the C library generator [s] after [k] calls of [rand()]. *)
Definition Drawn (k : nat) (s s' : RandState) : Prop :=
  forall n, s' n = s (k + n)%nat.

(** The members of a palette entry that [NormaliseProbabilities] does not
    write, and the palettes that agree on them. *)
Definition Unset (a : AvailableTile.t F) : AvailableTile.t F :=
  AvailableTile.setThreshold a f_zero.

Definition SamePalette (p p0 : list (AvailableTile.t F)) : Prop :=
  Unset <$> p = Unset <$> p0.

(** [frequencySum] *)
Definition FrequencySum (palette : list (AvailableTile.t F)) : Z :=
  fold_left (fun sum tile => (sum + AvailableTile.Frequency tile)%Z) palette 0%Z.

(** The type that the palette of the constructor gives a tile whose random
    number leaves the remainder [r] by 101. *)
Definition Rolled (r : Z) : TileType :=
  if (r <=? 85)%Z then ettFree
  else if (r <=? 95)%Z then ettObstructed
  else if (r <=? 99)%Z then ettUndesirable
  else ettDesirable.

End GenerationVocabulary.

(** ** The order of binary32 *)

(** The place of a float in the order of the comparisons: its class (the
    infinities outermost, zero of either sign in the middle), then its
    exponent and its mantissa.  NaN has none. *)
Definition SFkey (x : binary32) : option (Z * Z * Z) :=
  match x with
  | S754_nan => None
  | S754_zero _ => Some (0, 0, 0)%Z
  | S754_infinity false => Some (2, 0, 0)%Z
  | S754_infinity true => Some (-2, 0, 0)%Z
  | S754_finite false m e => Some (1, e, Z.pos m)%Z
  | S754_finite true m e => Some (-1, - e, Z.neg m)%Z
  end.

Definition key_le (k k' : Z * Z * Z) : Prop :=
  let '(a, b, c) := k in
  let '(a', b', c') := k' in
  (a < a' \/ (a = a' /\ (b < b' \/ (b = b' /\ c <= c'))))%Z.

Definition key_lt (k k' : Z * Z * Z) : Prop :=
  let '(a, b, c) := k in
  let '(a', b', c') := k' in
  (a < a' \/ (a = a' /\ (b < b' \/ (b = b' /\ c < c'))))%Z.

Definition SFle (x y : binary32) : Prop :=
  match SFkey x, SFkey y with
  | Some k, Some k' => key_le k k'
  | _, _ => False
  end.

Definition SFlt (x y : binary32) : Prop :=
  match SFkey x, SFkey y with
  | Some k, Some k' => key_lt k k'
  | _, _ => False
  end.

(** ** Sample data *)

(** The Euclidean length in binary32. *)
Definition Magnitude32 (v : Vector2f binary32) : binary32 :=
  SFsqrt 24 128 (SFadd 24 128 (SFmul 24 128 (X v) (X v)) (SFmul 24 128 (Y v) (Y v))).

(** A sample contribution formula: the displacement scaled by the strength
    of the candidate. *)
Definition Scaled32 (strength range : binary32) (d : Vector2f binary32) : Vector2f binary32 :=
  mkVector2f (SFmul 24 128 strength (X d)) (SFmul 24 128 strength (Y d)).

(** The same over the integers. *)
Definition MagnitudeZ (v : Vector2f Z) : Z := Z.sqrt (X v * X v + Y v * Y v).

Definition ScaledZ (strength range : Z) (d : Vector2f Z) : Vector2f Z :=
  mkVector2f (strength * X d)%Z (strength * Y d)%Z.

(** [(float) z] in binary32. *)
Definition float32 (z : Z) : binary32 := f_of_int z.

(** A free tile at (0,0) and, next to it at (1,0), an obstacle with the
    strength and range of the palette, in a 2 by 2 world. *)
Definition FreeTile32 : Tile binary32 :=
  mkTile ettFree (121, 255, 116)%Z (mkVector2f (float32 0) (float32 0))
         (float32 0) (float32 0) Zero.

Definition Obstacle32 : Tile binary32 :=
  mkTile ettObstructed (81, 0, 0)%Z (mkVector2f (float32 1) (float32 0))
         (float32 4) (float32 5) Zero.

Definition FreeBesideObstacle : TiledWorldGenerator binary32 :=
  mkGenerator 2 2 [] None [FreeTile32; Obstacle32] f_zero false.

(** A world of one obstacle, whose field is (1, 0) before the pass. *)
Definition StaleObstacle32 : Tile binary32 :=
  mkTile ettObstructed (81, 0, 0)%Z (mkVector2f (float32 0) (float32 0))
         (float32 4) (float32 5) (mkVector2f (float32 1) (float32 0)).


(** Over the integers: two undesirable tiles with equal members at (1,1)
    and a desirable tile at (3,2), in a 4 by 4 world. *)
Definition TwinZ : Tile Z :=
  mkTile ettUndesirable (255, 127, 39)%Z (mkVector2f 1 1)%Z 3%Z 10%Z (mkVector2f 0 0)%Z.

Definition DesirableZ : Tile Z :=
  mkTile ettDesirable (0, 81, 0)%Z (mkVector2f 3 2)%Z (-10)%Z 60%Z (mkVector2f 0 0)%Z.

Definition Twins : TiledWorldGenerator Z :=
  mkGenerator 4 4 [] None [TwinZ; TwinZ; DesirableZ] 0%Z false.

(** The same world with other fields, another largest field strength and
    a tree left from before. *)
Definition TwinsLater : TiledWorldGenerator Z :=
  mkGenerator 4 4 [] (Some (Leaf (mkAABBf (mkVector2f 0 0)%Z (mkVector2f 9 9)%Z) 0 [7]))
    [setField TwinZ (mkVector2f 5 (-5))%Z; TwinZ; setField DesirableZ (mkVector2f 1 2)%Z]
    42%Z false.

(** The scenario of §8: four tiles without range at the corners of a 10 by
    10 box. *)
Definition CornerZ (x y : Z) : Tile Z :=
  mkTile ettFree (121, 255, 116)%Z (mkVector2f x y) 0%Z 0%Z (mkVector2f 0 0)%Z.

Definition Corners : TiledWorldGenerator Z :=
  mkGenerator 10 10 [] None
    [CornerZ 0 0; CornerZ 10 0; CornerZ 0 10; CornerZ 10 10] 0%Z false.





(** A 2 by 2 generator with the palette of the constructor, and a C library
    generator that returns zero for ever. *)
Definition SmallGenerator32 : TiledWorldGenerator binary32 :=
  mkGenerator 2 2 (TilePalette (NewGenerator (f_zero : binary32))) None [] f_zero false.

Definition ZeroRand : RandState := fun _ => 0.

(** The sample passes: at most four tiles in a leaf, no box of size 1 or
    less is split, depth at most 8. *)
Definition SamplePass32 (g : TiledWorldGenerator binary32) : TiledWorldGenerator binary32 :=
  CalculateField 4 (float32 1) 8 Magnitude32 Scaled32 g.

Definition SampleContributors32 (g : TiledWorldGenerator binary32) (cur : TilePtr)
    : option (list TilePtr) :=
  Contributors 4 (float32 1) 8 g cur <$> world g !! cur.

Definition SamplePassZ (g : TiledWorldGenerator Z) : TiledWorldGenerator Z :=
  CalculateField 1 1%Z 8 MagnitudeZ ScaledZ g.

(** The palette of the constructor after [NormaliseProbabilities], in
    binary32. *)
Definition ConstructorPalette : list (AvailableTile.t binary32) :=
  Eval vm_compute in TilePalette (NormaliseProbabilities (NewGenerator (f_zero : binary32))).

(** A C library generator that counts up from 84, and a 2 by 2 generator
    whose palette entries have frequency zero. *)
Definition CountingRand : RandState := fun n => (84 + n)%nat.

Definition ZeroFrequencies32 : TiledWorldGenerator binary32 :=
  mkGenerator 2 2
    [ AvailableTile.mk 0 f_zero "Free" (121, 255, 116)%Z ettFree (float32 0) (float32 0);
      AvailableTile.mk 0 f_zero "Obstructed" (81, 0, 0)%Z ettObstructed
        (float32 4) (float32 5) ]
    None [] f_zero false.

(** The vector divided by its length, in binary32; a window of 800 by 600
    at (10, 20) with a title bar of 19; a generator without dimensions and
    without a world; the world of one obstacle with [ShowField] set. *)
Definition Normalised32 (v : Vector2f binary32) : Vector2f binary32 :=
  mkVector2f (SFdiv 24 128 (X v) (Magnitude32 v)) (SFdiv 24 128 (Y v) (Magnitude32 v)).

Definition SampleWindow32 : Window binary32 :=
  mkWindow (ImVec2.mk (float32 800) (float32 600)) (ImVec2.mk (float32 10) (float32 20))
           (float32 19).

Definition NoWorld32 : TiledWorldGenerator binary32 :=
  mkGenerator 0 0 [] None [] f_zero true.

Definition ShownObstacle : TiledWorldGenerator binary32 :=
  mkGenerator 1 1 [] None [StaleObstacle32] (float32 3) true.

(** A free tile in a generator whose dimensions were set to zero. *)
Definition NoRoom32 : TiledWorldGenerator binary32 :=
  mkGenerator 0 0 [] None [FreeTile32] f_zero false.

(** * Facts *)

(** ** Folds *)

Lemma fold_left_invariant {A B : Type} (f : A -> B -> A) (Q : A -> Prop)
    (l : list B) (a : A) :
  Q a -> (forall a' b, Q a' -> In b l -> Q (f a' b)) -> Q (fold_left f l a).
Proof.
  revert a. induction l as [|b l IH]; intros a Ha Hstep; simpl; [exact Ha|].
  apply IH.
  - apply Hstep; [exact Ha | now left].
  - intros a' b' Ha' Hin. apply Hstep; [exact Ha' | now right].
Qed.

Lemma fold_left_agree {A B : Type} (f g : A -> B -> A) (l : list B) (a : A) :
  (forall a' b, In b l -> f a' b = g a' b) -> fold_left f l a = fold_left g l a.
Proof.
  revert a. induction l as [|b l IH]; intros a Hfg; simpl; [reflexivity|].
  rewrite Hfg by now left. apply IH. intros a' b' Hin. apply Hfg. now right.
Qed.

(** ** The partition tree *)

Section IndexFacts.
Context {F : Type} `{FloatOps F}.
Variable SplitThreshold : nat.
Variable MinimumSize : F.
Variable MaximumDepth : nat.
Variable w : list (Tile F).

Local Abbreviation AddRec := (AddObject_rec SplitThreshold MinimumSize MaximumDepth).
Local Abbreviation Splits := (ShouldSplit SplitThreshold MinimumSize MaximumDepth).

Lemma AddObject_rec_Quad fuel b d c0 c1 c2 c3 p :
  AddRec fuel w (Quad b d c0 c1 c2 c3) p =
  Quad b d (AddToChild (AddRec fuel w) w c0 p) (AddToChild (AddRec fuel w) w c1 p)
           (AddToChild (AddRec fuel w) w c2 p) (AddToChild (AddRec fuel w) w c3 p).
Proof. destruct fuel; reflexivity. Qed.

Lemma AddObject_rec_Leaf_keep fuel b d cs p :
  Splits b d (cs ++ [p]) = false ->
  AddRec fuel w (Leaf b d cs) p = Leaf b d (cs ++ [p]).
Proof. intros Hs. destruct fuel; simpl; rewrite Hs; reflexivity. Qed.

Lemma AddObject_rec_Leaf_dry b d cs p :
  AddRec 0 w (Leaf b d cs) p = Leaf b d (cs ++ [p]).
Proof. simpl. destruct (Splits b d (cs ++ [p])); reflexivity. Qed.

Lemma AddObject_rec_Leaf_split fuel b d cs p :
  Splits b d (cs ++ [p]) = true ->
  AddRec (S fuel) w (Leaf b d cs) p =
  let '(c0, c1, c2, c3) :=
    fold_left (AddToChildren (AddRec fuel w) w) (cs ++ [p]) (Split b d) in
  Quad b d c0 c1 c2 c3.
Proof. intros Hs. simpl. rewrite Hs. reflexivity. Qed.

(** Induction along the calls of [AddObject_rec]: into the four children of
    an internal node, and with one unit of fuel less into the children that
    a split creates. *)
Lemma AddObject_rec_induction (P : nat -> Node F -> TilePtr -> Prop) :
  (forall fuel b d cs p,
      (forall fuel', fuel = S fuel' -> Splits b d (cs ++ [p]) = true ->
                     forall n q, P fuel' n q) ->
      P fuel (Leaf b d cs) p) ->
  (forall fuel b d c0 c1 c2 c3 p,
      P fuel c0 p -> P fuel c1 p -> P fuel c2 p -> P fuel c3 p ->
      P fuel (Quad b d c0 c1 c2 c3) p) ->
  forall fuel n p, P fuel n p.
Proof.
  intros Hleaf Hquad fuel.
  induction fuel as [|fuel IH]; intros n p; induction n as [b d cs|b d c0 IH0 c1 IH1 c2 IH2 c3 IH3].
  - apply Hleaf. intros fuel' Hf. discriminate Hf.
  - apply Hquad; assumption.
  - apply Hleaf. intros fuel' Hf _ n q. injection Hf as <-. apply IH.
  - apply Hquad; assumption.
Qed.

(** *** Bounding boxes are kept *)

Lemma AddToChild_Bounds (add : Node F -> TilePtr -> Node F) c p :
  (forall n q, Bounds (add n q) = Bounds n) -> Bounds (AddToChild add w c p) = Bounds c.
Proof. intros Hadd. unfold AddToChild. destruct (Overlaps w c p); [apply Hadd | reflexivity]. Qed.

Lemma AddToChildren_Bounds (add : Node F -> TilePtr -> Node F) cs p :
  (forall n q, Bounds (add n q) = Bounds n) ->
  ChildBounds (AddToChildren add w cs p) = ChildBounds cs.
Proof.
  intros Hadd. destruct cs as [[[c0 c1] c2] c3]. simpl.
  rewrite !AddToChild_Bounds by exact Hadd. reflexivity.
Qed.

Lemma Distribute_Bounds (add : Node F -> TilePtr -> Node F) l cs :
  (forall n q, Bounds (add n q) = Bounds n) ->
  ChildBounds (fold_left (AddToChildren add w) l cs) = ChildBounds cs.
Proof.
  intros Hadd. apply (fold_left_invariant _ (fun cs' => ChildBounds cs' = ChildBounds cs)).
  - reflexivity.
  - intros cs' q Hcs' _. rewrite AddToChildren_Bounds by exact Hadd. exact Hcs'.
Qed.

Lemma AddObject_rec_Bounds fuel n p : Bounds (AddRec fuel w n p) = Bounds n.
Proof.
  destruct n as [b d cs|b d c0 c1 c2 c3]; [|rewrite AddObject_rec_Quad; reflexivity].
  destruct (Splits b d (cs ++ [p])) eqn:Hs.
  - destruct fuel as [|fuel]; [rewrite AddObject_rec_Leaf_dry; reflexivity|].
    rewrite AddObject_rec_Leaf_split by exact Hs.
    destruct (fold_left _ _ _) as [[[c0 c1] c2] c3]. reflexivity.
  - rewrite AddObject_rec_Leaf_keep by exact Hs. reflexivity.
Qed.

Lemma Overlaps_Bounds n n' p : Bounds n = Bounds n' -> Overlaps w n p = Overlaps w n' p.
Proof. intros Hb. unfold Overlaps. rewrite Hb. reflexivity. Qed.

(** *** Children are the quadrants of their parent *)

Lemma AddToChild_WellFormed (add : Node F -> TilePtr -> Node F) c p :
  (forall n q, WellFormed n -> WellFormed (add n q)) ->
  WellFormed c -> WellFormed (AddToChild add w c p).
Proof. intros Hadd Hc. unfold AddToChild. destruct (Overlaps w c p); auto. Qed.

Lemma AddObject_rec_WellFormed fuel n p :
  WellFormed n -> WellFormed (AddRec fuel w n p).
Proof.
  revert fuel n p. apply (AddObject_rec_induction (fun fuel n p =>
    WellFormed n -> WellFormed (AddRec fuel w n p))).
  - intros fuel b d cs p IH _.
    destruct (Splits b d (cs ++ [p])) eqn:Hs;
      [|rewrite AddObject_rec_Leaf_keep by exact Hs; exact I].
    destruct fuel as [|fuel]; [rewrite AddObject_rec_Leaf_dry; exact I|].
    rewrite AddObject_rec_Leaf_split by exact Hs.
    specialize (IH fuel eq_refl eq_refl).
    pose proof (Distribute_Bounds (AddRec fuel w) (cs ++ [p]) (Split b d)
                  (AddObject_rec_Bounds fuel)) as Hb.
    assert (ChildrenWellFormed
              (fold_left (AddToChildren (AddRec fuel w) w) (cs ++ [p]) (Split b d))) as Hw.
    { apply fold_left_invariant; [simpl; tauto|].
      intros [[[c0 c1] c2] c3] q (H0 & H1 & H2 & H3) _. simpl.
      repeat split; apply AddToChild_WellFormed; auto. }
    destruct (fold_left _ _ _) as [[[c0 c1] c2] c3]. simpl in *.
    split; [exact Hb | exact Hw].
  - intros fuel b d c0 c1 c2 c3 p IH0 IH1 IH2 IH3 (Hb & H0 & H1 & H2 & H3).
    rewrite AddObject_rec_Quad. simpl.
    rewrite !AddToChild_Bounds by apply AddObject_rec_Bounds.
    split; [exact Hb|].
    repeat split; unfold AddToChild;
      match goal with |- WellFormed (if ?c then _ else _) => destruct c end; auto.
Qed.
End IndexFacts.

(** ** Boxes *)

Section BoxSpecs.
Context {F : Type} `{FloatOps F}.

Lemma Contains_spec (b : AABBf F) (p : Vector2f F) :
  Contains b p = true <->
  f_le (X (boxMin b)) (X p) = true /\ f_le (X p) (X (boxMax b)) = true /\
  f_le (Y (boxMin b)) (Y p) = true /\ f_le (Y p) (Y (boxMax b)) = true.
Proof.
  unfold Contains. rewrite !andb_true_iff.
  split; [intros [[[A B] C] D] | intros (A & B & C & D)]; repeat split; assumption.
Qed.

Lemma Intersects_spec (a b : AABBf F) :
  Intersects a b = true <->
  f_le (X (boxMin a)) (X (boxMax b)) = true /\ f_le (X (boxMin b)) (X (boxMax a)) = true /\
  f_le (Y (boxMin a)) (Y (boxMax b)) = true /\ f_le (Y (boxMin b)) (Y (boxMax a)) = true.
Proof.
  unfold Intersects. rewrite !andb_true_iff.
  split; [intros [[[A B] C] D] | intros (A & B & C & D)]; repeat split; assumption.
Qed.
End BoxSpecs.

Section BoxFacts.
Context {F : Type} `{!FloatOps F} `{!FloatOrder F}.

(** Two boxes with a common point meet. *)
Lemma Contains_Intersects (a b : AABBf F) (p : Vector2f F) :
  Contains a p = true -> Contains b p = true -> Intersects a b = true.
Proof.
  rewrite !Contains_spec, Intersects_spec.
  intros (A1 & A2 & A3 & A4) (B1 & B2 & B3 & B4).
  repeat split; eapply f_le_trans; eassumption.
Qed.

(** The coordinates of a point of a box are numbers, and so are the bounds
    of the box. *)
Lemma Contains_numbers (b : AABBf F) (p : Vector2f F) :
  Contains b p = true ->
  f_number (X p) = true /\ f_number (Y p) = true /\
  f_number (X (boxMax b)) = true /\ f_number (Y (boxMax b)) = true.
Proof.
  rewrite Contains_spec. intros (A1 & A2 & A3 & A4).
  destruct (f_le_numbers _ _ A2) as [Hx Hmx], (f_le_numbers _ _ A4) as [Hy Hmy]. auto.
Qed.

Context `{!FloatHalving F}.

Lemma Centre_numbers (b : AABBf F) :
  Halvable b -> f_number (X (Centre b)) = true /\ f_number (Y (Centre b)) = true.
Proof. intros [Hx Hy]. split; apply f_half_number; assumption. Qed.

(** The four quadrants cover a box that can be halved. *)
Lemma Quadrants_cover (b : AABBf F) (p : Vector2f F) :
  Halvable b -> Contains b p = true ->
  Contains (Quadrant0 b) p = true \/ Contains (Quadrant1 b) p = true \/
  Contains (Quadrant2 b) p = true \/ Contains (Quadrant3 b) p = true.
Proof.
  intros Hb Hp. destruct (Contains_numbers b p Hp) as (Nx & Ny & _).
  destruct (Centre_numbers b Hb) as [Cx Cy].
  revert Hp. rewrite !Contains_spec. intros (A1 & A2 & A3 & A4). simpl in *.
  set (mx := f_div (f_add (X (boxMin b)) (X (boxMax b))) (f_of_int 2)) in *.
  set (my := f_div (f_add (Y (boxMin b)) (Y (boxMax b))) (f_of_int 2)) in *.
  destruct (f_le_total (X p) mx Nx Cx) as [Hx|Hx], (f_le_total (Y p) my Ny Cy) as [Hy|Hy].
  - left. auto.
  - right. right. left. auto.
  - right. left. auto.
  - right. right. right. auto.
Qed.

(** The quadrants of a box that can be halved can be halved. *)
Lemma Quadrants_Halvable (b : AABBf F) :
  Halvable b ->
  Halvable (Quadrant0 b) /\ Halvable (Quadrant1 b) /\
  Halvable (Quadrant2 b) /\ Halvable (Quadrant3 b).
Proof.
  intros [Hx Hy]. unfold Halvable. simpl.
  repeat split; solve [apply f_mid_lo; assumption | apply f_mid_hi; assumption].
Qed.
End BoxFacts.

(** ** What the tree holds *)

Section Holding.
Context {F : Type} `{FloatOps F}.
Variable SplitThreshold : nat.
Variable MinimumSize : F.
Variable MaximumDepth : nat.
Variable w : list (Tile F).

Local Abbreviation AddRec := (AddObject_rec SplitThreshold MinimumSize MaximumDepth).
Local Abbreviation Splits := (ShouldSplit SplitThreshold MinimumSize MaximumDepth).

Lemma AddToChild_Holds_new (add : Node F -> TilePtr -> Node F) c p :
  Keeps w add -> Overlaps w (AddToChild add w c p) p = true -> Holds w (AddToChild add w c p) p.
Proof.
  intros Hadd. unfold AddToChild. destruct (Overlaps w c p) eqn:Ho.
  - intros _. destruct (Hadd c p) as (_ & Hn & _). exact Hn.
  - rewrite Ho. discriminate.
Qed.

Lemma AddToChild_Holds_old (add : Node F -> TilePtr -> Node F) c p r :
  Keeps w add -> (Overlaps w c r = true -> Holds w c r) ->
  Overlaps w (AddToChild add w c p) r = true -> Holds w (AddToChild add w c p) r.
Proof.
  intros Hadd Hc. unfold AddToChild. destruct (Overlaps w c p); [|exact Hc].
  rewrite (Overlaps_Bounds w (add c p) c r) by apply Hadd.
  intros Ho. destruct (Hadd c p) as (_ & _ & Hold). apply Hold, Hc, Ho.
Qed.

Lemma AddToChildren_Holds_new (add : Node F -> TilePtr -> Node F) cs p :
  Keeps w add -> ChildrenHold w (AddToChildren add w cs p) p.
Proof.
  intros Hadd. destruct cs as [[[c0 c1] c2] c3]. simpl.
  repeat split; apply AddToChild_Holds_new; exact Hadd.
Qed.

Lemma AddToChildren_Holds_old (add : Node F -> TilePtr -> Node F) cs p r :
  Keeps w add -> ChildrenHold w cs r -> ChildrenHold w (AddToChildren add w cs p) r.
Proof.
  intros Hadd. destruct cs as [[[c0 c1] c2] c3]. simpl. intros (H0 & H1 & H2 & H3).
  repeat split; apply AddToChild_Holds_old; assumption.
Qed.

(** Distributing a list of objects over four children leaves each of them,
    and every object held before, held. *)
Lemma Distribute_Holds (add : Node F -> TilePtr -> Node F) l cs :
  Keeps w add ->
  (forall q, In q l -> ChildrenHold w (fold_left (AddToChildren add w) l cs) q) /\
  (forall r, ChildrenHold w cs r -> ChildrenHold w (fold_left (AddToChildren add w) l cs) r).
Proof.
  intros Hadd. revert cs. induction l as [|a l IH]; intros cs; simpl.
  - split; [intros q [] | auto].
  - destruct (IH (AddToChildren add w cs a)) as [IHnew IHold]. split.
    + intros q [<-|Hq]; [|apply IHnew, Hq].
      apply IHold, AddToChildren_Holds_new, Hadd.
    + intros r Hr. apply IHold, AddToChildren_Holds_old; assumption.
Qed.

Lemma AddObject_rec_Keeps fuel : Keeps w (AddRec fuel w).
Proof.
  intros n p. split; [apply AddObject_rec_Bounds|].
  revert fuel n p. apply (AddObject_rec_induction SplitThreshold MinimumSize MaximumDepth
    (fun fuel n p => Holds w (AddRec fuel w n p) p /\
                     (forall r, Holds w n r -> Holds w (AddRec fuel w n p) r))).
  - intros fuel b d cs p IH.
    destruct (Splits b d (cs ++ [p])) eqn:Hs.
    2:{ rewrite AddObject_rec_Leaf_keep by exact Hs. simpl.
        split; [|intros r Hr]; apply in_or_app; [right; now left | now left]. }
    destruct fuel as [|fuel].
    { rewrite AddObject_rec_Leaf_dry. simpl.
      split; [|intros r Hr]; apply in_or_app; [right; now left | now left]. }
    rewrite AddObject_rec_Leaf_split by exact Hs.
    assert (Keeps w (AddRec fuel w)) as Hadd.
    { intros n q. split; [apply AddObject_rec_Bounds|]. apply (IH fuel eq_refl eq_refl). }
    destruct (Distribute_Holds (AddRec fuel w) (cs ++ [p]) (Split b d) Hadd) as [Hnew _].
    destruct (fold_left _ _ _) as [[[c0 c1] c2] c3]. simpl.
    split; [|intros r Hr]; apply (Hnew _); apply in_or_app; [right; now left | now left].
  - intros fuel b d c0 c1 c2 c3 p IH0 IH1 IH2 IH3.
    assert (forall c, (Holds w (AddRec fuel w c p) p /\
                       (forall r, Holds w c r -> Holds w (AddRec fuel w c p) r)) ->
                      (Overlaps w (AddToChild (AddRec fuel w) w c p) p = true ->
                       Holds w (AddToChild (AddRec fuel w) w c p) p) /\
                      (forall r, (Overlaps w c r = true -> Holds w c r) ->
                                 Overlaps w (AddToChild (AddRec fuel w) w c p) r = true ->
                                 Holds w (AddToChild (AddRec fuel w) w c p) r)) as Hchild.
    { intros c [Hn Ho]. unfold AddToChild. destruct (Overlaps w c p) eqn:Hov.
      - split; [auto|]. intros r Hr.
        rewrite (Overlaps_Bounds w (AddRec fuel w c p) c r) by apply AddObject_rec_Bounds.
        auto.
      - split; [rewrite Hov; discriminate | auto]. }
    destruct (Hchild c0 IH0) as [N0 O0], (Hchild c1 IH1) as [N1 O1],
             (Hchild c2 IH2) as [N2 O2], (Hchild c3 IH3) as [N3 O3].
    rewrite AddObject_rec_Quad. simpl.
    split; [tauto|]. intros r (H0 & H1 & H2 & H3).
    repeat split; [apply O0 | apply O1 | apply O2 | apply O3]; assumption.
Qed.

Lemma FindTiles_Members n point q : In q (FindTiles n point) -> In q (Members n).
Proof.
  induction n as [b d cs|b d c0 IH0 c1 IH1 c2 IH2 c3 IH3]; simpl; [auto|].
  rewrite !in_app_iff.
  destruct (Contains (Bounds c0) point); [auto|].
  destruct (Contains (Bounds c1) point); [auto|].
  destruct (Contains (Bounds c2) point); [auto|].
  destruct (Contains (Bounds c3) point); [auto|].
  intros [].
Qed.
End Holding.

Section Membership.
Context {F : Type} `{FloatOps F}.
Variable SplitThreshold : nat.
Variable MinimumSize : F.
Variable MaximumDepth : nat.
Variable w : list (Tile F).

Local Abbreviation AddRec := (AddObject_rec SplitThreshold MinimumSize MaximumDepth).
Local Abbreviation Add := (AddObject SplitThreshold MinimumSize MaximumDepth).
Local Abbreviation Splits := (ShouldSplit SplitThreshold MinimumSize MaximumDepth).

Lemma AddToChild_Members (add : Node F -> TilePtr -> Node F) c p q :
  AddsOnly add -> In q (Members (AddToChild add w c p)) -> q = p \/ In q (Members c).
Proof. intros Hadd. unfold AddToChild. destruct (Overlaps w c p); auto. Qed.

Lemma AddToChildren_Members (add : Node F -> TilePtr -> Node F) cs p q :
  AddsOnly add -> In q (ChildrenMembers (AddToChildren add w cs p)) ->
  q = p \/ In q (ChildrenMembers cs).
Proof.
  intros Hadd. destruct cs as [[[c0 c1] c2] c3]. simpl. rewrite !in_app_iff.
  intros [Hq|[Hq|[Hq|Hq]]]; apply (AddToChild_Members add _ _ _ Hadd) in Hq; tauto.
Qed.

Lemma Distribute_Members (add : Node F -> TilePtr -> Node F) l cs q :
  AddsOnly add -> In q (ChildrenMembers (fold_left (AddToChildren add w) l cs)) ->
  In q l \/ In q (ChildrenMembers cs).
Proof.
  intros Hadd. revert cs. induction l as [|a l IH]; intros cs; simpl; [auto|].
  intros Hq. apply IH in Hq. destruct Hq as [Hq|Hq]; [auto|].
  apply (AddToChildren_Members add _ _ _ Hadd) in Hq. destruct Hq; auto.
Qed.

Lemma AddObject_rec_AddsOnly fuel : AddsOnly (AddRec fuel w).
Proof.
  unfold AddsOnly. revert fuel.
  apply (AddObject_rec_induction SplitThreshold MinimumSize MaximumDepth
    (fun fuel n p => forall q, In q (Members (AddRec fuel w n p)) -> q = p \/ In q (Members n))).
  - intros fuel b d cs p IH q.
    assert (In q (cs ++ [p]) -> q = p \/ In q cs) as Hleaf.
    { rewrite in_app_iff. simpl. intuition. }
    destruct (Splits b d (cs ++ [p])) eqn:Hs;
      [|rewrite AddObject_rec_Leaf_keep by exact Hs; exact Hleaf].
    destruct fuel as [|fuel]; [rewrite AddObject_rec_Leaf_dry; exact Hleaf|].
    rewrite AddObject_rec_Leaf_split by exact Hs.
    pose proof (Distribute_Members (AddRec fuel w) (cs ++ [p]) (Split b d) q
                  (IH fuel eq_refl eq_refl)) as Hd.
    destruct (fold_left _ _ _) as [[[c0 c1] c2] c3]. simpl in *.
    intros Hq. destruct (Hd Hq) as [Hin|[]]. apply Hleaf, Hin.
  - intros fuel b d c0 c1 c2 c3 p IH0 IH1 IH2 IH3 q.
    rewrite AddObject_rec_Quad. simpl. rewrite !in_app_iff.
    unfold AddToChild.
    destruct (Overlaps w c0 p), (Overlaps w c1 p), (Overlaps w c2 p), (Overlaps w c3 p);
      intros [Hq|[Hq|[Hq|Hq]]];
      try (apply IH0 in Hq); try (apply IH1 in Hq);
      try (apply IH2 in Hq); try (apply IH3 in Hq); tauto.
Qed.

(** The tree after inserting the pointers [l] one by one. *)
Lemma Build_Bounds l n : Bounds (fold_left (Add w) l n) = Bounds n.
Proof.
  apply (fold_left_invariant _ (fun n' => Bounds n' = Bounds n)); [reflexivity|].
  intros n' p Hn' _. unfold AddObject. rewrite AddObject_rec_Bounds. exact Hn'.
Qed.

Lemma Build_WellFormed l n : WellFormed n -> WellFormed (fold_left (Add w) l n).
Proof.
  intros Hn. apply fold_left_invariant; [exact Hn|].
  intros n' p Hn' _. apply AddObject_rec_WellFormed, Hn'.
Qed.

Lemma Build_Holds l n :
  (forall q, In q l -> Holds w (fold_left (Add w) l n) q) /\
  (forall r, Holds w n r -> Holds w (fold_left (Add w) l n) r).
Proof.
  revert n. induction l as [|a l IH]; intros n; simpl.
  - split; [intros q [] | auto].
  - destruct (IH (Add w n a)) as [IHnew IHold].
    destruct (AddObject_rec_Keeps SplitThreshold MinimumSize MaximumDepth w MaximumDepth n a)
      as (_ & Hnew & Hold).
    split.
    + intros q [<-|Hq]; [apply IHold, Hnew | apply IHnew, Hq].
    + intros r Hr. apply IHold, Hold, Hr.
Qed.

Lemma Build_Members l n q :
  In q (Members (fold_left (Add w) l n)) -> In q l \/ In q (Members n).
Proof.
  revert n. induction l as [|a l IH]; intros n; simpl; [auto|].
  intros Hq. apply IH in Hq. destruct Hq as [Hq|Hq]; [auto|].
  apply AddObject_rec_AddsOnly in Hq. destruct Hq; auto.
Qed.
End Membership.

(** *** The fuel of [AddObject] is never used up *)

Section Fuel.
Context {F : Type} `{FloatOps F}.
Variable SplitThreshold : nat.
Variable MinimumSize : F.
Variable MaximumDepth : nat.
Variable w : list (Tile F).

Local Abbreviation AddRec := (AddObject_rec SplitThreshold MinimumSize MaximumDepth).
Local Abbreviation Add := (AddObject SplitThreshold MinimumSize MaximumDepth).
Local Abbreviation Splits := (ShouldSplit SplitThreshold MinimumSize MaximumDepth).

Lemma Deep_mono k k' (n : Node F) : k <= k' -> Deep k' n -> Deep k n.
Proof.
  intros Hk. induction n as [b d cs|b d c0 IH0 c1 IH1 c2 IH2 c3 IH3]; simpl; [lia | tauto].
Qed.

Lemma Deep_zero (n : Node F) : Deep 0 n.
Proof.
  induction n as [b d cs|b d c0 IH0 c1 IH1 c2 IH2 c3 IH3]; simpl; [lia | tauto].
Qed.

Lemma ShouldSplit_depth b d cs : Splits b d cs = true -> d < MaximumDepth.
Proof.
  unfold ShouldSplit. rewrite !andb_true_iff. intros (_ & Hd). apply Nat.ltb_lt, Hd.
Qed.

Lemma AddToChildren_Deep (add : Node F -> TilePtr -> Node F) k cs p :
  (forall n q, Deep k n -> Deep k (add n q)) ->
  ChildrenDeep k cs -> ChildrenDeep k (AddToChildren add w cs p).
Proof.
  intros Hadd. destruct cs as [[[c0 c1] c2] c3]. simpl. unfold AddToChild.
  intros (H0 & H1 & H2 & H3).
  repeat split; match goal with |- Deep _ (if ?c then _ else _) => destruct c end; auto.
Qed.

Lemma AddObject_rec_Deep fuel n p k : Deep k n -> Deep k (AddRec fuel w n p).
Proof.
  revert fuel n p k.
  apply (AddObject_rec_induction SplitThreshold MinimumSize MaximumDepth
    (fun fuel n p => forall k, Deep k n -> Deep k (AddRec fuel w n p))).
  - intros fuel b d cs p IH k Hk. simpl in Hk.
    destruct (Splits b d (cs ++ [p])) eqn:Hs;
      [|rewrite AddObject_rec_Leaf_keep by exact Hs; exact Hk].
    destruct fuel as [|fuel]; [rewrite AddObject_rec_Leaf_dry; exact Hk|].
    rewrite AddObject_rec_Leaf_split by exact Hs.
    assert (ChildrenDeep (S d)
              (fold_left (AddToChildren (AddRec fuel w) w) (cs ++ [p]) (Split b d))) as Hd.
    { apply fold_left_invariant; [simpl; lia|].
      intros cs' q Hcs' _. apply AddToChildren_Deep; [|exact Hcs'].
      intros n r. apply (IH fuel eq_refl eq_refl). }
    destruct (fold_left _ _ _) as [[[c0 c1] c2] c3]. simpl in *.
    destruct Hd as (H0 & H1 & H2 & H3).
    repeat split; apply (Deep_mono k (S d)); auto; lia.
  - intros fuel b d c0 c1 c2 c3 p IH0 IH1 IH2 IH3 k (H0 & H1 & H2 & H3).
    rewrite AddObject_rec_Quad. simpl. unfold AddToChild.
    repeat split; match goal with |- Deep _ (if ?c then _ else _) => destruct c end; auto.
Qed.

Lemma Distribute_fuel (add add' : Node F -> TilePtr -> Node F) k l cs :
  (forall n q, Deep k n -> Deep k (add n q)) ->
  (forall n q, Deep k n -> add n q = add' n q) ->
  ChildrenDeep k cs ->
  fold_left (AddToChildren add w) l cs = fold_left (AddToChildren add' w) l cs.
Proof.
  intros Hdeep Hsame. revert cs. induction l as [|a l IH]; intros cs Hcs; simpl; [reflexivity|].
  assert (AddToChildren add w cs a = AddToChildren add' w cs a) as <-.
  { destruct cs as [[[c0 c1] c2] c3]. simpl in *. destruct Hcs as (H0 & H1 & H2 & H3).
    unfold AddToChild. rewrite !Hsame by assumption. reflexivity. }
  apply IH, AddToChildren_Deep; assumption.
Qed.

(** Below [MaximumDepth - k] levels of fresh children no leaf splits, so
    any two amounts of fuel of at least that much give the same tree. *)
Lemma AddObject_rec_fuel fuel n p :
  forall fuel' k, Deep k n -> MaximumDepth - k <= fuel -> MaximumDepth - k <= fuel' ->
                  AddRec fuel w n p = AddRec fuel' w n p.
Proof.
  revert fuel n p.
  apply (AddObject_rec_induction SplitThreshold MinimumSize MaximumDepth
    (fun fuel n p => forall fuel' k, Deep k n -> MaximumDepth - k <= fuel ->
                                     MaximumDepth - k <= fuel' ->
                                     AddRec fuel w n p = AddRec fuel' w n p)).
  - intros fuel b d cs p IH fuel' k Hk Hf Hf'. simpl in Hk.
    destruct (Splits b d (cs ++ [p])) eqn:Hs;
      [|rewrite !AddObject_rec_Leaf_keep by exact Hs; reflexivity].
    pose proof (ShouldSplit_depth _ _ _ Hs) as Hd.
    destruct fuel as [|fuel]; [lia|]. destruct fuel' as [|fuel']; [lia|].
    rewrite !AddObject_rec_Leaf_split by exact Hs.
    rewrite (Distribute_fuel (AddRec fuel w) (AddRec fuel' w) (S d)); [reflexivity| | |].
    + intros n q. apply AddObject_rec_Deep.
    + intros n q Hn. apply (IH fuel eq_refl eq_refl n q fuel' (S d) Hn); lia.
    + simpl. lia.
  - intros fuel b d c0 c1 c2 c3 p IH0 IH1 IH2 IH3 fuel' k (H0 & H1 & H2 & H3) Hf Hf'.
    rewrite !AddObject_rec_Quad. unfold AddToChild.
    rewrite (IH0 fuel' k), (IH1 fuel' k), (IH2 fuel' k), (IH3 fuel' k) by assumption.
    reflexivity.
Qed.

(** [AddObject] returns the tree of any run with at least [MaximumDepth]
    units of fuel: its own fuel is enough. *)
Lemma AddObject_fuel fuel n p :
  MaximumDepth <= fuel -> AddRec fuel w n p = Add w n p.
Proof.
  intros Hf. unfold AddObject. apply (AddObject_rec_fuel fuel n p MaximumDepth 0).
  - apply Deep_zero.
  - lia.
  - lia.
Qed.
End Fuel.

Section Finding.
Context {F : Type} `{!FloatOps F} `{!FloatOrder F} `{!FloatHalving F}.
Variable w : list (Tile F).

(** A tree that holds an object returns it for every point of the object's
    box that lies in the tree, when the box of the tree can be halved. *)
Lemma FindTiles_Holds (n : Node F) (p : TilePtr) (t : Tile F) (point : Vector2f F) :
  WellFormed n -> Halvable (Bounds n) -> Holds w n p -> w !! p = Some t ->
  Contains (TileBounds t) point = true -> Contains (Bounds n) point = true ->
  In p (FindTiles n point).
Proof.
  intros Hwf Hhalf Hh Ht Hobj. revert Hwf Hhalf Hh.
  induction n as [b d cs|b d c0 IH0 c1 IH1 c2 IH2 c3 IH3]; simpl; [auto|].
  intros (Hb & W0 & W1 & W2 & W3) Hhalf (H0' & H1' & H2' & H3') Hin.
  assert (forall c, Contains (Bounds c) point = true -> Overlaps w c p = true) as Hov.
  { intros c Hc. unfold Overlaps. rewrite Ht. eapply Contains_Intersects; eassumption. }
  injection Hb as B0 B1 B2 B3.
  destruct (Quadrants_Halvable b Hhalf) as (Q0 & Q1 & Q2 & Q3).
  rewrite <- B0 in Q0. rewrite <- B1 in Q1. rewrite <- B2 in Q2. rewrite <- B3 in Q3.
  destruct (Contains (Bounds c0) point) eqn:C0; [auto|].
  destruct (Contains (Bounds c1) point) eqn:C1; [auto|].
  destruct (Contains (Bounds c2) point) eqn:C2; [auto|].
  destruct (Contains (Bounds c3) point) eqn:C3; [auto|].
  rewrite B0 in C0. rewrite B1 in C1. rewrite B2 in C2. rewrite B3 in C3.
  destruct (Quadrants_cover b point Hhalf Hin) as [Q|[Q|[Q|Q]]]; congruence.
Qed.
End Finding.

(** ** Tiles up to their field *)

Section SameTiles.
Context {F : Type} `{FloatOps F}.

Lemma Clear_eq (a b : Tile F) :
  Clear a = Clear b ->
  Type_ a = Type_ b /\ Location a = Location b /\ FieldStrength a = FieldStrength b /\
  FieldRange a = FieldRange b /\ forall v, setField a v = setField b v.
Proof.
  destruct a, b. unfold Clear, setField. simpl. intros E. injection E as -> -> -> -> ->.
  repeat split; reflexivity.
Qed.

Lemma SameTiles_refl w : SameTiles w w.
Proof. reflexivity. Qed.

Lemma SameTiles_length w w0 : SameTiles w w0 -> length w = length w0.
Proof. intros E. apply (f_equal length) in E. rewrite !length_fmap in E. exact E. Qed.

Lemma SameTiles_lookup w w0 i :
  SameTiles w w0 -> Clear <$> (w !! i) = Clear <$> (w0 !! i).
Proof. intros E. rewrite <- !list_lookup_fmap, E. reflexivity. Qed.

Lemma SameTiles_Some w w0 i t0 :
  SameTiles w w0 -> w0 !! i = Some t0 -> exists t, w !! i = Some t /\ Clear t = Clear t0.
Proof.
  intros E Ht0. pose proof (SameTiles_lookup w w0 i E) as El. rewrite Ht0 in El.
  destruct (w !! i) as [t|]; [|discriminate]. exists t. split; [reflexivity|].
  simpl in El. congruence.
Qed.

Lemma SameTiles_None w w0 i : SameTiles w w0 -> w0 !! i = None -> w !! i = None.
Proof.
  intros E Ht0. pose proof (SameTiles_lookup w w0 i E) as El. rewrite Ht0 in El.
  destruct (w !! i); [discriminate | reflexivity].
Qed.

Lemma SameTiles_insert w w0 i t v :
  SameTiles w w0 -> w !! i = Some t -> SameTiles (<[i := setField t v]> w) w0.
Proof.
  intros E Ht. unfold SameTiles. rewrite list_fmap_insert, <- E.
  apply list_insert_id. rewrite list_lookup_fmap, Ht. reflexivity.
Qed.

Lemma TileBounds_Clear (a b : Tile F) : Clear a = Clear b -> TileBounds a = TileBounds b.
Proof.
  intros E. destruct (Clear_eq a b E) as (_ & El & _ & Er & _).
  unfold TileBounds. rewrite El, Er. reflexivity.
Qed.

Lemma Overlaps_SameTiles w w0 n p : SameTiles w w0 -> Overlaps w n p = Overlaps w0 n p.
Proof.
  intros E. unfold Overlaps. destruct (w0 !! p) as [t0|] eqn:Ht0.
  - destruct (SameTiles_Some w w0 p t0 E Ht0) as (t & -> & Ec).
    rewrite (TileBounds_Clear t t0 Ec). reflexivity.
  - rewrite (SameTiles_None w w0 p E Ht0). reflexivity.
Qed.

Variable SplitThreshold : nat.
Variable MinimumSize : F.
Variable MaximumDepth : nat.

Local Abbreviation AddRec := (AddObject_rec SplitThreshold MinimumSize MaximumDepth).
Local Abbreviation Splits := (ShouldSplit SplitThreshold MinimumSize MaximumDepth).

Lemma AddToChildren_agree (add add' : Node F -> TilePtr -> Node F) w w0 cs p :
  SameTiles w w0 -> (forall n q, add n q = add' n q) ->
  AddToChildren add w cs p = AddToChildren add' w0 cs p.
Proof.
  intros E Hadd. destruct cs as [[[c0 c1] c2] c3]. unfold AddToChildren, AddToChild.
  rewrite !(Overlaps_SameTiles w w0) by exact E. rewrite !Hadd. reflexivity.
Qed.

(** Insertion reads the position and the range of the tiles, not their
    field. *)
Lemma AddObject_rec_SameTiles w w0 fuel n p :
  SameTiles w w0 -> AddRec fuel w n p = AddRec fuel w0 n p.
Proof.
  intros E. revert fuel n p.
  apply (AddObject_rec_induction SplitThreshold MinimumSize MaximumDepth
    (fun fuel n p => AddRec fuel w n p = AddRec fuel w0 n p)).
  - intros fuel b d cs p IH.
    destruct (Splits b d (cs ++ [p])) eqn:Hs;
      [|rewrite !AddObject_rec_Leaf_keep by exact Hs; reflexivity].
    destruct fuel as [|fuel]; [rewrite !AddObject_rec_Leaf_dry; reflexivity|].
    rewrite !AddObject_rec_Leaf_split by exact Hs.
    rewrite (fold_left_agree (AddToChildren (AddRec fuel w) w)
                             (AddToChildren (AddRec fuel w0) w0)); [reflexivity|].
    intros cs' q _. apply AddToChildren_agree; [exact E|]. apply (IH fuel eq_refl eq_refl).
  - intros fuel b d c0 c1 c2 c3 p IH0 IH1 IH2 IH3.
    rewrite !AddObject_rec_Quad. unfold AddToChild.
    rewrite !(Overlaps_SameTiles w w0) by exact E. rewrite IH0, IH1, IH2, IH3. reflexivity.
Qed.
End SameTiles.

(** ** The field pass in closed form *)

Section Pass.
Context {F : Type} `{FloatOps F}.
Variable SplitThreshold : nat.
Variable MinimumSize : F.
Variable MaximumDepth : nat.
Variable Magnitude : Vector2f F -> F.
Variable FieldFormula : F -> F -> Vector2f F -> Vector2f F.

Local Abbreviation Tree := (BuiltTree SplitThreshold MinimumSize MaximumDepth).
Local Abbreviation Contribute := (AddContribution FieldFormula).
Local Abbreviation Field := (FieldOf FieldFormula).
Local Abbreviation Final := (Settled FieldFormula).
Local Abbreviation Tracked := (Strength Magnitude FieldFormula).
Local Abbreviation Add := (AddObject SplitThreshold MinimumSize MaximumDepth).
Local Abbreviation To := (CalculateFieldTo FieldFormula).
Local Abbreviation Step := (FieldStep Magnitude FieldFormula).
Local Abbreviation Run :=
  (CalculateField_calls SplitThreshold MinimumSize MaximumDepth Magnitude FieldFormula).

Lemma setField_same (t : Tile F) : setField t (LocalFieldValue t) = t.
Proof. destruct t. reflexivity. Qed.

Lemma AddContribution_SameTiles w w0 cur t t0 acc q :
  SameTiles w w0 -> Clear t = Clear t0 ->
  Contribute w cur t acc q = Contribute w0 cur t0 acc q.
Proof.
  intros E Et. unfold AddContribution. destruct (decide (q = cur)); [reflexivity|].
  destruct (Clear_eq t t0 Et) as (_ & El & _).
  destruct (w0 !! q) as [o0|] eqn:Ho0.
  - destruct (SameTiles_Some w w0 q o0 E Ho0) as (o & -> & Eo).
    destruct (Clear_eq o o0 Eo) as (_ & Eol & Eos & Eor & _).
    unfold CalculateFieldTo. rewrite El, Eol, Eos, Eor. reflexivity.
  - rewrite (SameTiles_None w w0 q E Ho0). reflexivity.
Qed.

Lemma FieldOf_SameTiles root w w0 cur t t0 :
  SameTiles w w0 -> Clear t = Clear t0 -> Field root w cur t = Field root w0 cur t0.
Proof.
  intros E Et. unfold FieldOf. destruct (Clear_eq t t0 Et) as (_ & -> & _).
  apply fold_left_agree. intros acc q _. apply AddContribution_SameTiles; assumption.
Qed.

(** The loop at lines 92-99 writes one tile, the current one. *)
Lemma Accumulate_fold cur cands w t :
  w !! cur = Some t ->
  fold_left (Accumulate FieldFormula cur) cands w =
  <[cur := setField t (fold_left (Contribute w cur t) cands (LocalFieldValue t))]> w.
Proof.
  revert w t. induction cands as [|q cands IH]; intros w t Ht; simpl.
  - rewrite setField_same. symmetry. apply list_insert_id, Ht.
  - unfold Accumulate at 2. unfold AddContribution at 2.
    destruct (decide (q = cur)) as [->|Hq]; [apply IH, Ht|].
    rewrite Ht. destruct (w !! q) as [other|] eqn:Ho; [|apply IH, Ht].
    set (t1 := setField t (vadd (LocalFieldValue t) (To other t))).
    assert (<[cur := t1]> w !! cur = Some t1) as Ht1.
    { apply list_lookup_insert_eq. eapply lookup_lt_Some, Ht. }
    rewrite (IH _ t1 Ht1), list_insert_insert_eq. f_equal.
    change (setField t1 ?v) with (setField t v).
    f_equal. apply fold_left_agree. intros acc q' _.
    unfold AddContribution. destruct (decide (q' = cur)); [reflexivity|].
    rewrite list_lookup_insert_ne by congruence. reflexivity.
Qed.

(** One turn of the loop at lines 74-105, on a store that holds the tiles of
    [w0] with any fields. *)
Lemma FieldStep_spec root w0 w largest calls cur :
  SameTiles w w0 ->
  Step root (w, largest, calls) cur =
  (match w0 !! cur with
   | Some t0 => <[cur := Final root w0 cur t0]> w
   | None => w
   end,
   fold_left Track (Tracked root w0 cur) largest,
   calls ++ map CallFindTiles (Query w0 cur)).
Proof.
  intros E. unfold FieldStep, Strength, Query.
  destruct (w0 !! cur) as [t0|] eqn:Ht0.
  2:{ rewrite (SameTiles_None w w0 cur E Ht0). simpl. rewrite app_nil_r. reflexivity. }
  destruct (SameTiles_Some w w0 cur t0 E Ht0) as (t & Ht & Et).
  destruct (Clear_eq t t0 Et) as (Ety & Eloc & _ & _ & Eset).
  rewrite Ht. unfold Settled. rewrite Ety.
  destruct (decide (Type_ t0 = ettObstructed)) as [Ho|Ho].
  { simpl. rewrite app_nil_r, Eset. reflexivity. }
  assert (cur < length w) as Hlt by (eapply lookup_lt_Some, Ht).
  rewrite (Accumulate_fold cur _ _ (setField t Zero)) by (apply list_lookup_insert_eq, Hlt).
  rewrite list_insert_insert_eq, list_lookup_insert_eq by exact Hlt.
  change (setField (setField t Zero) ?v) with (setField t v).
  change (LocalFieldValue (setField t Zero)) with (@Zero F _).
  change (Location (setField t Zero)) with (Location t).
  assert (fold_left (Contribute (<[cur := setField t Zero]> w) cur (setField t Zero))
                    (FindTiles root (Location t)) Zero
          = Field root w0 cur t0) as ->.
  { unfold FieldOf. rewrite <- Eloc. apply fold_left_agree. intros acc q _.
    apply AddContribution_SameTiles; [|exact Et].
    apply SameTiles_insert; assumption. }
  simpl. rewrite Eset, Eloc. reflexivity.
Qed.

(** The loop at lines 74-105 over any list of pointers. *)
Lemma FieldLoop root w0 l w largest calls :
  SameTiles w w0 ->
  exists w',
    fold_left (Step root) l (w, largest, calls) =
      (w', fold_left Track (flat_map (Tracked root w0) l) largest,
       calls ++ map CallFindTiles (flat_map (Query w0) l)) /\
    SameTiles w' w0 /\
    (forall i, In i l -> w' !! i = Final root w0 i <$> w0 !! i) /\
    (forall i, ~ In i l -> w' !! i = w !! i).
Proof.
  revert w largest calls. induction l as [|a l IH]; intros w largest calls E.
  - exists w. simpl. rewrite app_nil_r. repeat split; [exact E | intros i [] ].
  - cbn [fold_left flat_map]. rewrite (FieldStep_spec root w0 w largest calls a E).
    set (w1 := match w0 !! a with
               | Some t0 => <[a := Final root w0 a t0]> w
               | None => w
               end).
    assert (SameTiles w1 w0) as E1.
    { unfold w1. destruct (w0 !! a) as [t0|] eqn:Ht0; [|exact E].
      destruct (SameTiles_Some w w0 a t0 E Ht0) as (t & Ht & Et).
      destruct (Clear_eq t t0 Et) as (_ & _ & _ & _ & Eset).
      unfold Settled. rewrite <- Eset. apply SameTiles_insert; assumption. }
    assert (w1 !! a = Final root w0 a <$> w0 !! a) as Ha.
    { unfold w1. destruct (w0 !! a) as [t0|] eqn:Ht0.
      - destruct (SameTiles_Some w w0 a t0 E Ht0) as (t & Ht & _).
        apply list_lookup_insert_eq. eapply lookup_lt_Some, Ht.
      - apply (SameTiles_None w w0 a E Ht0). }
    assert (forall i, i <> a -> w1 !! i = w !! i) as Hother.
    { intros i Hi. unfold w1. destruct (w0 !! a); [|reflexivity].
      apply list_lookup_insert_ne. congruence. }
    destruct (IH w1 (fold_left Track (Tracked root w0 a) largest)
                 (calls ++ map CallFindTiles (Query w0 a)) E1)
      as (w' & Hrun & E' & Hin & Hout).
    exists w'. rewrite Hrun, fold_left_app, map_app, app_assoc.
    repeat split; [exact E' | |].
    + intros i Hi. destruct (in_dec Nat.eq_dec i l) as [Hl|Hl]; [apply Hin, Hl|].
      destruct Hi as [<-|Hi]; [|contradiction]. rewrite (Hout a Hl). exact Ha.
    + intros i Hi. rewrite Hout by (intros Hl; apply Hi; now right).
      apply Hother. intros ->. apply Hi. now left.
Qed.

Lemma BuildStep_fold w l n calls :
  fold_left (BuildStep SplitThreshold MinimumSize MaximumDepth w) l (n, calls) =
  (fold_left (Add w) l n, calls ++ map CallAddObject l).
Proof.
  revert n calls. induction l as [|a l IH]; intros n calls; simpl.
  - rewrite app_nil_r. reflexivity.
  - unfold BuildStep at 2. simpl. rewrite IH, <- app_assoc. reflexivity.
Qed.

Lemma In_Pointers (w : list (Tile F)) i : In i (Pointers w) <-> i < length w.
Proof. unfold Pointers. rewrite in_seq. lia. Qed.

(** [CalculateField] in closed form: the tree it leaves in [rootNode], the
    field of every tile, the largest field strength and the calls it made. *)
Lemma CalculateField_calls_spec g :
  exists w',
    Run g =
      (mkGenerator (Length g) (Width g) (TilePalette g) (Some (Tree g)) w'
         (fold_left Track (flat_map (Tracked (Tree g) (world g)) (Pointers (world g)))
                    f_zero)
         (ShowField g),
       CallNew Zero (mkVector2f (f_of_int (Length g)) (f_of_int (Width g))) None 0
         :: map CallAddObject (Pointers (world g))
         ++ map CallFindTiles (flat_map (Query (world g)) (Pointers (world g)))) /\
    SameTiles w' (world g) /\
    forall i, w' !! i = Final (Tree g) (world g) i <$> world g !! i.
Proof.
  unfold CalculateField_calls. rewrite BuildStep_fold. fold (Tree g).
  destruct (FieldLoop (Tree g) (world g) (Pointers (world g)) (world g) f_zero
              ([CallNew (boxMin (WorldBounds g)) (boxMax (WorldBounds g)) None 0]
                 ++ map CallAddObject (Pointers (world g)))
              (SameTiles_refl _)) as (w' & Hrun & E' & Hin & Hout).
  exists w'. rewrite Hrun. split; [reflexivity|]. split; [exact E'|].
  intros i. destruct (decide (i < length (world g))) as [Hi|Hi].
  - apply Hin, In_Pointers, Hi.
  - rewrite Hout by (rewrite In_Pointers; exact Hi).
    rewrite (lookup_ge_None_2 (world g) i) by lia. reflexivity.
Qed.
End Pass.

(** ** The laws hold of the integers *)

#[export] Instance Z_order : FloatOrder Z.
Proof.
  split; unfold f_number, f_le, f_lt, f_zero, Z_ops.
  - intros a b c. rewrite !Z.leb_le. lia.
  - intros a b _. split; apply Z.leb_refl.
  - intros a b _ _. rewrite !Z.leb_le. lia.
  - intros a b. rewrite Z.ltb_lt, Z.leb_le. lia.
  - intros a b _ _. rewrite Z.ltb_ge, Z.leb_le. lia.
  - reflexivity.
Qed.

#[export] Instance Z_halving : FloatHalving Z.
Proof. split; intros; apply Z.leb_refl. Qed.

(** ** The laws hold of binary32 *)

(** *** The comparisons follow the key *)

Lemma SFleb_spec (x y : binary32) : SFleb x y = true <-> SFle x y.
Proof.
  unfold SFleb, SFle, SFcompare.
  destruct x as [sx | sx | | sx mx ex], y as [sy | sy | | sy my ey];
    try destruct sx; try destruct sy; cbn [SFkey key_le];
    try (split; [intros _; lia | reflexivity]);
    try (split; [discriminate | lia]);
    try (split; [discriminate | intros []]).
  - change (Pos.compare_cont Eq mx my) with (Pos.compare mx my).
    destruct (Z.compare_spec ex ey); [destruct (Pos.compare_spec mx my)|..];
      cbn [CompOpp];
      (split; [try discriminate; intros _; lia
              | try reflexivity; intros Hk; exfalso; lia]).
  - change (Pos.compare_cont Eq mx my) with (Pos.compare mx my).
    destruct (Z.compare_spec ex ey); [destruct (Pos.compare_spec mx my)|..];
      (split; [try discriminate; intros _; lia
              | try reflexivity; intros Hk; exfalso; lia]).
Qed.

Lemma SFltb_spec (x y : binary32) : SFltb x y = true <-> SFlt x y.
Proof.
  unfold SFltb, SFlt, SFcompare.
  destruct x as [sx | sx | | sx mx ex], y as [sy | sy | | sy my ey];
    try destruct sx; try destruct sy; cbn [SFkey key_lt];
    try (split; [intros _; lia | reflexivity]);
    try (split; [discriminate | lia]);
    try (split; [discriminate | intros []]).
  - change (Pos.compare_cont Eq mx my) with (Pos.compare mx my).
    destruct (Z.compare_spec ex ey); [destruct (Pos.compare_spec mx my)|..];
      cbn [CompOpp];
      (split; [try discriminate; intros _; lia
              | try reflexivity; intros Hk; exfalso; lia]).
  - change (Pos.compare_cont Eq mx my) with (Pos.compare mx my).
    destruct (Z.compare_spec ex ey); [destruct (Pos.compare_spec mx my)|..];
      (split; [try discriminate; intros _; lia
              | try reflexivity; intros Hk; exfalso; lia]).
Qed.

Lemma SFleb_number (x : binary32) : SFleb x x = true <-> x <> S754_nan.
Proof.
  rewrite SFleb_spec. unfold SFle.
  destruct x as [s | s | | s m e]; try destruct s; cbn [SFkey key_le];
    (split; [intros Hk; try discriminate; destruct Hk | intros Hn; try lia; congruence]).
Qed.

(** *** Rounding never makes a NaN *)

Lemma iter_pos_invariant {A : Type} (f : A -> A) (P : A -> Prop) :
  (forall x, P x -> P (f x)) -> forall p x, P x -> P (SpecFloat.iter_pos f p x).
Proof.
  intros Hf. induction p as [p IH | p IH |]; intros x Hx; cbn [SpecFloat.iter_pos]; auto.
Qed.

Lemma shr_1_nonneg (mrs : shr_record) : (0 <= shr_m mrs)%Z -> (0 <= shr_m (shr_1 mrs))%Z.
Proof.
  destruct mrs as [m r s]. destruct m as [|[p|p|]|[p|p|]]; cbn; lia.
Qed.

Lemma shr_fexp_nonneg (prec emax m e : Z) (l : location) :
  (0 <= m)%Z -> (0 <= shr_m (fst (shr_fexp prec emax m e l)))%Z.
Proof.
  intros Hm. unfold shr_fexp, shr.
  assert (0 <= shr_m (shr_record_of_loc m l))%Z as H0 by (destruct l as [|[]]; exact Hm).
  destruct (_ - e)%Z as [|p|p]; cbn [fst]; [exact H0 | | exact H0].
  apply (iter_pos_invariant shr_1 (fun mrs => 0 <= shr_m mrs)%Z shr_1_nonneg), H0.
Qed.

Lemma round_nearest_even_nonneg (m : Z) (l : location) :
  (0 <= m)%Z -> (0 <= round_nearest_even m l)%Z.
Proof.
  intros Hm. destruct l as [|[]]; cbn; try destruct (Z.even m); lia.
Qed.

Lemma binary_round_aux_number (prec emax : Z) (sx : bool) (mx ex : Z) (lx : location) :
  (0 <= mx)%Z -> binary_round_aux prec emax sx mx ex lx <> S754_nan.
Proof.
  intros Hm. unfold binary_round_aux.
  pose proof (shr_fexp_nonneg prec emax mx ex lx Hm) as H1.
  destruct (shr_fexp prec emax mx ex lx) as [mrs' e']. cbn [fst] in H1.
  pose proof (shr_fexp_nonneg prec emax
                (round_nearest_even (shr_m mrs') (loc_of_shr_record mrs')) e' loc_Exact
                (round_nearest_even_nonneg _ _ H1)) as H2.
  destruct (shr_fexp prec emax _ e' loc_Exact) as [mrs'' e'']. cbn [fst] in H2.
  destruct (shr_m mrs'') as [|p|p]; [discriminate | | lia].
  destruct (e'' <=? emax - prec)%Z; discriminate.
Qed.

Lemma binary_normalize_number (prec emax m e : Z) (szero : bool) :
  binary_normalize prec emax m e szero <> S754_nan.
Proof.
  unfold binary_normalize, binary_round.
  destruct m as [|p|p]; [discriminate | |];
    destruct (shl_align _ _ _) as [mz ez]; apply binary_round_aux_number; lia.
Qed.

(** The sum of two numbers is a number, but for the sum of the two
    infinities. *)
Lemma SFadd_number (x y : binary32) :
  SFadd 24 128 x y <> S754_nan <->
  x <> S754_nan /\ y <> S754_nan /\
  forall s, ~ (x = S754_infinity s /\ y = S754_infinity (negb s)).
Proof.
  destruct x as [sx | sx | | sx mx ex], y as [sy | sy | | sy my ey];
    try destruct sx; try destruct sy; cbn [SFadd];
    try (split; [intros _; repeat split; try discriminate; intros s [E1 E2];
                 destruct s; discriminate
                | intros _; try discriminate; apply binary_normalize_number]);
    try (split; [intros Hn; congruence | intros (H1 & H2 & H3); congruence]).
  - split; [intros Hn; congruence | intros (_ & _ & H3)]. destruct (H3 true). auto.
  - split; [intros Hn; congruence | intros (_ & _ & H3)]. destruct (H3 false). auto.
Qed.

(** So is the half of a number. *)
Lemma SFdiv_two_number (x : binary32) :
  x <> S754_nan -> SFdiv 24 128 x (binary_normalize 24 128 2 0 false) <> S754_nan.
Proof.
  change (binary_normalize 24 128 2 0 false) with (S754_finite false 8388608 (-22)).
  intros Hx. destruct x as [sx | sx | | sx mx ex]; [discriminate | discriminate | congruence |].
  unfold SFdiv, SFdiv_core_binary.
  destruct (Z.div_eucl _ _) as [q r] eqn:Hq.
  apply binary_round_aux_number.
  apply (f_equal fst) in Hq. cbn [fst] in Hq. rewrite <- Hq.
  apply Z.div_pos; [|lia].
  destruct (_ - _ - _)%Z as [|p|p]; [lia | apply Z.shiftl_nonneg; lia | lia].
Qed.

Lemma SFdiv_two_infinity (s : bool) :
  SFdiv 24 128 (S754_infinity s) (binary_normalize 24 128 2 0 false) = S754_infinity s.
Proof. destruct s; reflexivity. Qed.

(** *** The instances *)

Lemma f_number_binary32 (x : binary32) : f_number x = true <-> x <> S754_nan.
Proof. apply SFleb_number. Qed.

#[export] Instance binary32_order : FloatOrder binary32.
Proof.
  split; unfold f_number; cbn [f_le f_lt f_zero binary32_ops].
  - intros a b c. rewrite !SFleb_spec. unfold SFle.
    destruct (SFkey a) as [[[a1 a2] a3]|], (SFkey b) as [[[b1 b2] b3]|],
      (SFkey c) as [[[c1 c2] c3]|]; cbn [key_le]; try tauto. lia.
  - intros a b. rewrite !SFleb_spec. unfold SFle.
    destruct (SFkey a) as [[[a1 a2] a3]|], (SFkey b) as [[[b1 b2] b3]|];
      cbn [key_le]; try tauto. lia.
  - intros a b. rewrite !SFleb_spec. unfold SFle.
    destruct (SFkey a) as [[[a1 a2] a3]|], (SFkey b) as [[[b1 b2] b3]|];
      cbn [key_le]; try tauto. lia.
  - intros a b. rewrite SFltb_spec, SFleb_spec. unfold SFlt, SFle.
    destruct (SFkey a) as [[[a1 a2] a3]|], (SFkey b) as [[[b1 b2] b3]|];
      cbn [key_le key_lt]; try tauto. lia.
  - intros a b Ha Hb Hlt. apply SFleb_spec. apply SFleb_spec in Ha, Hb.
    assert (~ SFlt a b) as Hn by (rewrite <- SFltb_spec, Hlt; discriminate).
    unfold SFle, SFlt in *.
    destruct (SFkey a) as [[[a1 a2] a3]|], (SFkey b) as [[[b1 b2] b3]|];
      cbn [key_le key_lt] in *; try tauto. lia.
  - reflexivity.
Qed.

#[export] Instance binary32_halving : FloatHalving binary32.
Proof.
  split; intros *; rewrite !f_number_binary32; cbn [f_add f_div f_zero f_of_int binary32_ops].
  - intros Ha. apply SFadd_number. repeat split; [discriminate | exact Ha |].
    intros s [E _]. discriminate E.
  - apply SFdiv_two_number.
  - intros Hs. pose proof (proj1 (SFadd_number lo hi) Hs) as (Hlo & Hhi & Hopp).
    apply SFadd_number. split; [exact Hlo|]. split; [apply SFdiv_two_number, Hs|].
    intros s [-> E].
    assert (SFadd 24 128 (S754_infinity s) hi = S754_infinity s) as Esum.
    { destruct hi as [s' | s' | | s' m e]; try reflexivity; [|congruence].
      destruct s, s'; try reflexivity; exfalso; [apply (Hopp true) | apply (Hopp false)];
        split; reflexivity. }
    rewrite Esum, SFdiv_two_infinity in E. destruct s; discriminate E.
  - intros Hs. pose proof (proj1 (SFadd_number lo hi) Hs) as (Hlo & Hhi & Hopp).
    apply SFadd_number. split; [apply SFdiv_two_number, Hs|]. split; [exact Hhi|].
    intros s [E ->].
    assert (SFadd 24 128 lo (S754_infinity (negb s)) = S754_infinity (negb s)) as Esum.
    { destruct lo as [s' | s' | | s' m e]; try reflexivity; [|congruence].
      destruct s, s'; try reflexivity; exfalso; [apply (Hopp true) | apply (Hopp false)];
        split; reflexivity. }
    rewrite Esum, SFdiv_two_infinity in E. destruct s; discriminate E.
Qed.

(** ** Lists by position *)

Lemma flat_map_agree {A B : Type} (f g : A -> list B) (l : list A) :
  (forall a, In a l -> f a = g a) -> flat_map f l = flat_map g l.
Proof.
  induction l as [|a l IH]; intros Hfg; simpl; [reflexivity|].
  rewrite Hfg by now left. f_equal. apply IH. intros a' Ha'. apply Hfg. now right.
Qed.

Lemma flat_map_by_position {A B : Type} (f : A -> list B) (l : list A) :
  flat_map f l =
  flat_map (fun i => match l !! i with Some a => f a | None => [] end) (seq 0 (length l)).
Proof.
  induction l as [|a l IH] using rev_ind; [reflexivity|].
  rewrite length_app, seq_app, !flat_map_app. simpl. rewrite app_nil_r. f_equal.
  - rewrite IH. apply flat_map_agree. intros i Hi. apply in_seq in Hi.
    rewrite lookup_app_l by lia. reflexivity.
  - rewrite app_nil_r, lookup_app_r by lia. rewrite Nat.sub_diag. reflexivity.
Qed.

Lemma filter_fmap_flat_map {A B : Type} (P : A -> Prop) `{!forall a, Decision (P a)}
    (f : A -> B) (l : list A) :
  f <$> filter P l = flat_map (fun a => if decide (P a) then [f a] else []) l.
Proof.
  induction l as [|a l IH]; [reflexivity|].
  rewrite filter_cons. cbn [flat_map].
  destruct (decide (P a)); [rewrite fmap_cons|]; rewrite IH; reflexivity.
Qed.

(** ** Tracking the largest field strength *)

Section Tracking.
Context {F : Type} `{!FloatOps F} `{!FloatOrder F}.


End Tracking.

(** ** What a pass leaves behind *)

Section PassResults.
Context {F : Type} `{FloatOps F}.
Variable SplitThreshold : nat.
Variable MinimumSize : F.
Variable MaximumDepth : nat.
Variable Magnitude : Vector2f F -> F.
Variable FieldFormula : F -> F -> Vector2f F -> Vector2f F.

Local Abbreviation Tree := (BuiltTree SplitThreshold MinimumSize MaximumDepth).
Local Abbreviation Cands := (Candidates SplitThreshold MinimumSize MaximumDepth).
Local Abbreviation Summands :=
  (Contributions SplitThreshold MinimumSize MaximumDepth FieldFormula).
Local Abbreviation Field := (FieldOf FieldFormula).
Local Abbreviation Final := (Settled FieldFormula).
Local Abbreviation Tracked := (Strength Magnitude FieldFormula).
Local Abbreviation To := (CalculateFieldTo FieldFormula).
Local Abbreviation Run :=
  (CalculateField_calls SplitThreshold MinimumSize MaximumDepth Magnitude FieldFormula).
Local Abbreviation Pass :=
  (CalculateField SplitThreshold MinimumSize MaximumDepth Magnitude FieldFormula).

Lemma Pass_rootNode g : rootNode (Pass g) = Some (Tree g).
Proof.
  unfold CalculateField.
  destruct (CalculateField_calls_spec SplitThreshold MinimumSize MaximumDepth
              Magnitude FieldFormula g) as (w' & -> & _).
  reflexivity.
Qed.

Lemma Pass_size g : Length (Pass g) = Length g /\ Width (Pass g) = Width g.
Proof.
  unfold CalculateField.
  destruct (CalculateField_calls_spec SplitThreshold MinimumSize MaximumDepth
              Magnitude FieldFormula g) as (w' & -> & _).
  split; reflexivity.
Qed.

Lemma Pass_world g i : world (Pass g) !! i = Final (Tree g) (world g) i <$> world g !! i.
Proof.
  unfold CalculateField.
  destruct (CalculateField_calls_spec SplitThreshold MinimumSize MaximumDepth
              Magnitude FieldFormula g) as (w' & -> & _ & Hw).
  apply Hw.
Qed.

Lemma Pass_SameTiles g : SameTiles (world (Pass g)) (world g).
Proof.
  unfold CalculateField.
  destruct (CalculateField_calls_spec SplitThreshold MinimumSize MaximumDepth
              Magnitude FieldFormula g) as (w' & -> & E & _).
  exact E.
Qed.

Lemma Pass_largest g :
  largestFieldStrength (Pass g) =
  fold_left Track (flat_map (Tracked (Tree g) (world g)) (Pointers (world g))) f_zero.
Proof.
  unfold CalculateField.
  destruct (CalculateField_calls_spec SplitThreshold MinimumSize MaximumDepth
              Magnitude FieldFormula g) as (w' & -> & _).
  reflexivity.
Qed.

Lemma Run_calls g :
  snd (Run g) =
  CallNew Zero (mkVector2f (f_of_int (Length g)) (f_of_int (Width g))) None 0
    :: map CallAddObject (Pointers (world g)) ++ map CallFindTiles (Queries g).
Proof.
  destruct (CalculateField_calls_spec SplitThreshold MinimumSize MaximumDepth
              Magnitude FieldFormula g) as (w' & -> & _).
  reflexivity.
Qed.

(** The tree of a pass covers the world bounds, is well formed, holds every
    tile of the world and nothing else. *)
Lemma Tree_Bounds g : Bounds (Tree g) = WorldBounds g.
Proof. unfold BuiltTree. rewrite Build_Bounds. reflexivity. Qed.

Lemma Tree_WellFormed g : WellFormed (Tree g).
Proof. unfold BuiltTree. apply Build_WellFormed. exact I. Qed.

Lemma Tree_Holds g i : i < length (world g) -> Holds (world g) (Tree g) i.
Proof.
  intros Hi. unfold BuiltTree.
  apply (proj1 (Build_Holds SplitThreshold MinimumSize MaximumDepth (world g) _ _)).
  apply In_Pointers, Hi.
Qed.

Lemma Tree_Members g q : In q (Members (Tree g)) -> q < length (world g).
Proof.
  intros Hq. unfold BuiltTree in Hq. apply Build_Members in Hq.
  destruct Hq as [Hq|[]]. apply In_Pointers, Hq.
Qed.

Lemma Candidates_valid g t q : In q (Cands g t) -> is_Some (world g !! q).
Proof.
  intros Hq. apply lookup_lt_is_Some, Tree_Members.
  eapply FindTiles_Members, Hq.
Qed.

(** The accumulation of lines 92-99 is the sum, from [Vector2f::Zero] and in
    candidate order, of the contributions of the candidates other than the
    tile itself. *)
Lemma AddContribution_fold w cur t l acc :
  fold_left (AddContribution FieldFormula w cur t) l acc =
  fold_left vadd (omap (fun q => (fun other => To other t) <$> w !! q)
                       (filter (fun q => q <> cur) l)) acc.
Proof.
  revert acc. induction l as [|q l IH]; intros acc; [reflexivity|].
  rewrite filter_cons. cbn [fold_left]. unfold AddContribution at 2.
  destruct (decide (q = cur)) as [->|Hq].
  - rewrite decide_False by auto. apply IH.
  - rewrite decide_True by exact Hq. cbn [omap list_omap].
    destruct (w !! q) as [other|]; cbn [fmap option_fmap option_map fold_left]; apply IH.
Qed.

Lemma FieldOf_Contributions g cur t :
  Field (Tree g) (world g) cur t = fold_left vadd (Summands g cur t) Zero.
Proof. apply AddContribution_fold. Qed.

(** The field of a tile that is not an obstacle, after the pass. *)
Lemma Pass_field g cur t :
  world g !! cur = Some t -> Type_ t <> ettObstructed ->
  world (Pass g) !! cur = Some (setField t (fold_left vadd (Summands g cur t) Zero)).
Proof.
  intros Ht Hty. rewrite Pass_world, Ht. cbn [fmap option_fmap option_map].
  unfold Settled. rewrite decide_False by exact Hty.
  rewrite FieldOf_Contributions. reflexivity.
Qed.


End PassResults.

(** ** Contributors *)

Section ContributorFacts.
Context {F : Type} `{FloatOps F}.
Variable SplitThreshold : nat.
Variable MinimumSize : F.
Variable MaximumDepth : nat.
Variable Magnitude : Vector2f F -> F.
Variable FieldFormula : F -> F -> Vector2f F -> Vector2f F.

Local Abbreviation Tree := (BuiltTree SplitThreshold MinimumSize MaximumDepth).
Local Abbreviation Cands := (Candidates SplitThreshold MinimumSize MaximumDepth).
Local Abbreviation Contribs := (Contributors SplitThreshold MinimumSize MaximumDepth).
Local Abbreviation Summands :=
  (Contributions SplitThreshold MinimumSize MaximumDepth FieldFormula).
Local Abbreviation To := (CalculateFieldTo FieldFormula).

Lemma Contributors_spec g cur t q : In q (Contribs g cur t) <-> In q (Cands g t) /\ q <> cur.
Proof.
  unfold Contributors. rewrite <- !list_elem_of_In, list_elem_of_filter.
  apply and_comm.
Qed.

Lemma Contributions_spec g cur t q other :
  In q (Contribs g cur t) -> world g !! q = Some other -> In (To other t) (Summands g cur t).
Proof.
  intros Hq Ho. unfold Contributions. rewrite <- list_elem_of_In, list_elem_of_omap.
  exists q. rewrite list_elem_of_In, Ho. split; [exact Hq | reflexivity].
Qed.

Lemma Contributions_Contributors g cur t :
  Forall2 (fun q v => exists other, world g !! q = Some other /\ v = To other t)
          (Contribs g cur t) (Summands g cur t).
Proof.
  unfold Contributions.
  assert (forall q, In q (Contribs g cur t) -> is_Some (world g !! q)) as Hvalid.
  { intros q Hq. apply Contributors_spec in Hq. eapply Candidates_valid, Hq. }
  induction (Contribs g cur t) as [|q l IH]; [constructor|].
  destruct (Hvalid q) as [other Ho]; [now left|].
  cbn [omap list_omap]. rewrite Ho. cbn [fmap option_fmap option_map].
  constructor; [eauto|]. apply IH. intros q' Hq'. apply Hvalid. now right.
Qed.



End ContributorFacts.

(** ** World generation *)

Section Generation.
Context {F : Type} `{FloatOps F}.

Lemma GenerateTile_world palette first lengthIndex widthIndex (w : list (Tile F)) s :
  exists t,
    fst (GenerateTile palette first lengthIndex widthIndex (w, s)) = w ++ [t] /\
    Location t = mkVector2f (f_of_int (Z.of_nat lengthIndex)) (f_of_int (Z.of_nat widthIndex)).
Proof.
  unfold GenerateTile. destruct (rand s) as [r s1].
  destruct (find _ palette) as [tile|]; [|destruct (rand s1) as [r' s']];
    eexists; split; reflexivity.
Qed.

Lemma OnGrid_size (g g' : TiledWorldGenerator F) t :
  Length g = Length g' -> Width g = Width g' -> OnGrid g t -> OnGrid g' t.
Proof. unfold OnGrid. intros <- <-. auto. Qed.

Lemma GenerateWorld_size (g : TiledWorldGenerator F) s :
  Length (fst (GenerateWorld g s)) = Length g /\ Width (fst (GenerateWorld g s)) = Width g /\
  rootNode (fst (GenerateWorld g s)) = rootNode g.
Proof.
  unfold GenerateWorld. destruct (TilePalette g); [auto|].
  destruct (fold_left _ _ _) as [w s']. auto.
Qed.

(** Every tile that [GenerateWorld] adds sits on a cell of the grid. *)
Lemma GenerateWorld_OnGrid (g : TiledWorldGenerator F) s :
  (forall t, In t (world g) -> OnGrid g t) ->
  forall t, In t (world (fst (GenerateWorld g s))) -> OnGrid g t.
Proof.
  intros Hg. unfold GenerateWorld. destruct (TilePalette g) as [|first rest] eqn:Hp; [exact Hg|].
  set (Q := fun acc : list (Tile F) * RandState => forall t, In t (fst acc) -> OnGrid g t).
  assert (Q (fold_left
               (fun acc lengthIndex =>
                  fold_left (fun acc' widthIndex =>
                               GenerateTile (first :: rest) first lengthIndex widthIndex acc')
                            (seq 0 (Z.to_nat (Width g))) acc)
               (seq 0 (Z.to_nat (Length g))) (world g, s))) as HQ.
  { apply fold_left_invariant; [exact Hg|].
    intros acc lengthIndex Hacc Hl. apply fold_left_invariant; [exact Hacc|].
    intros [w s0] widthIndex Hw Hwd.
    destruct (GenerateTile_world (first :: rest) first lengthIndex widthIndex w s0)
      as (t & Hgen & Hloc).
    unfold Q. rewrite Hgen. intros t' Ht'. apply in_app_or in Ht'.
    destruct Ht' as [Ht'|[<-|[]]]; [apply Hw, Ht'|].
    apply in_seq in Hl. apply in_seq in Hwd.
    exists (Z.of_nat lengthIndex), (Z.of_nat widthIndex). repeat split; [lia.. | exact Hloc]. }
  destruct (fold_left _ _ _) as [w s']. exact HQ.
Qed.

Lemma Generate_size (g : TiledWorldGenerator F) s :
  Length (fst (Generate g s)) = Length g /\ Width (fst (Generate g s)) = Width g /\
  rootNode (fst (Generate g s)) = rootNode g.
Proof.
  unfold Generate.
  destruct (GenerateWorld_size (ClearWorld (NormaliseProbabilities g)) s) as (-> & -> & ->).
  repeat split.
Qed.

(** [Generate] leaves every tile of the world on the grid. *)
Lemma Generate_OnGrid (g : TiledWorldGenerator F) s t :
  In t (world (fst (Generate g s))) -> OnGrid (fst (Generate g s)) t.
Proof.
  intros Ht. destruct (Generate_size g s) as (Hl & Hw & _).
  apply (OnGrid_size (ClearWorld (NormaliseProbabilities g)));
    [symmetry; exact Hl | symmetry; exact Hw |].
  eapply GenerateWorld_OnGrid; [|exact Ht]. intros t' [].
Qed.

Lemma Queries_spec (g : TiledWorldGenerator F) point :
  In point (Queries g) ->
  exists i t, world g !! i = Some t /\ Type_ t <> ettObstructed /\ point = Location t.
Proof.
  unfold Queries. rewrite in_flat_map. intros (i & _ & Hin). unfold Query in Hin.
  destruct (world g !! i) as [t|] eqn:Ht; [|destruct Hin].
  destruct (decide (Type_ t = ettObstructed)); [destruct Hin|].
  destruct Hin as [<-|[]]. exists i, t. repeat split; auto.
Qed.

(** The queries of a pass are the positions of the tiles that are not
    obstacles, in the order of the world. *)
Lemma Queries_filter (g : TiledWorldGenerator F) :
  Queries g = Location <$> filter (fun t => Type_ t <> ettObstructed) (world g).
Proof.
  unfold Queries, Pointers. rewrite filter_fmap_flat_map.
  rewrite (flat_map_by_position
             (fun t : Tile F => if decide (Type_ t <> ettObstructed) then [Location t] else [])
             (world g)).
  apply flat_map_agree. intros i _. unfold Query.
  destruct (world g !! i) as [t|]; [|reflexivity].
  destruct (decide (Type_ t = ettObstructed)) as [Hty|Hty];
    [rewrite decide_False by tauto | rewrite decide_True by exact Hty]; reflexivity.
Qed.
End Generation.

Section GridFacts.
Context {F : Type} `{FloatOps F}.

(** A tile on the grid lies in the world bounds, when the conversion from
    [int] takes 0 to zero and keeps the order of the indices of the grid. *)
Lemma OnGrid_Contains (g : TiledWorldGenerator F) t :
  f_of_int 0 = f_zero ->
  (forall a b, (0 <= a <= b)%Z -> (b <= Z.max (Length g) (Width g))%Z ->
               f_le (f_of_int a) (f_of_int b) = true) ->
  OnGrid g t -> Contains (WorldBounds g) (Location t) = true.
Proof.
  intros Hzero Hmono (li & wi & Hl & Hw & ->). rewrite Contains_spec. simpl.
  rewrite <- Hzero. repeat split; apply Hmono; lia.
Qed.
End GridFacts.

(** ** Finding what was inserted *)

Section ContainmentFacts.
Context {F : Type} `{!FloatOps F} `{!FloatOrder F} `{!FloatHalving F}.
Variable SplitThreshold : nat.
Variable MinimumSize : F.
Variable MaximumDepth : nat.

Local Abbreviation Tree := (BuiltTree SplitThreshold MinimumSize MaximumDepth).
Local Abbreviation Cands := (Candidates SplitThreshold MinimumSize MaximumDepth).
Local Abbreviation Contribs := (Contributors SplitThreshold MinimumSize MaximumDepth).

(** The world bounds can be halved as soon as they hold a point. *)
Lemma WorldBounds_Halvable (g : TiledWorldGenerator F) point :
  Contains (WorldBounds g) point = true -> Halvable (WorldBounds g).
Proof.
  intros Hin. destruct (Contains_numbers _ _ Hin) as (_ & _ & Hx & Hy).
  split; apply f_zero_add; assumption.
Qed.

(** The tree of a pass returns a tile for every point of the world bounds
    within the box of the tile. *)
Lemma Tree_finds (g : TiledWorldGenerator F) i t point :
  world g !! i = Some t ->
  Contains (TileBounds t) point = true ->
  Contains (WorldBounds g) point = true ->
  In i (FindTiles (Tree g) point).
Proof.
  intros Ht Hobj Hin. apply (FindTiles_Holds (world g) _ i t).
  - apply Tree_WellFormed.
  - rewrite Tree_Bounds. eapply WorldBounds_Halvable, Hin.
  - apply Tree_Holds. eapply lookup_lt_Some, Ht.
  - exact Ht.
  - exact Hobj.
  - rewrite Tree_Bounds. exact Hin.
Qed.

(** Another tile at the position of a tile is one of its contributors. *)
Lemma coincident_tile_contributes (g : TiledWorldGenerator F) cur t q other :
  world g !! cur = Some t -> world g !! q = Some other -> q <> cur ->
  Location other = Location t ->
  Contains (WorldBounds g) (Location t) = true ->
  Contains (TileBounds other) (Location other) = true ->
  In q (Contribs g cur t).
Proof.
  intros Ht Ho Hne Hloc Hin Hr. apply Contributors_spec. split; [|exact Hne].
  unfold Candidates. rewrite <- Hloc. apply (Tree_finds g q other); [exact Ho | exact Hr |].
  rewrite Hloc. exact Hin.
Qed.
End ContainmentFacts.

(** ** Worlds of the same tiles *)

Section SameWorlds.
Context {F : Type} `{FloatOps F}.
Variable SplitThreshold : nat.
Variable MinimumSize : F.
Variable MaximumDepth : nat.
Variable Magnitude : Vector2f F -> F.
Variable FieldFormula : F -> F -> Vector2f F -> Vector2f F.

Local Abbreviation Tree := (BuiltTree SplitThreshold MinimumSize MaximumDepth).
Local Abbreviation Tracked := (Strength Magnitude FieldFormula).
Local Abbreviation Final := (Settled FieldFormula).

Lemma BuiltTree_SameTiles (g1 g2 : TiledWorldGenerator F) :
  Length g1 = Length g2 -> Width g1 = Width g2 -> SameTiles (world g1) (world g2) ->
  Tree g1 = Tree g2.
Proof.
  intros Hl Hw E. unfold BuiltTree, WorldBounds, Pointers.
  rewrite Hl, Hw, (SameTiles_length _ _ E).
  apply fold_left_agree. intros n p _. apply AddObject_rec_SameTiles, E.
Qed.

Lemma Settled_SameTiles root (w1 w2 : list (Tile F)) i :
  SameTiles w1 w2 -> Final root w1 i <$> w1 !! i = Final root w2 i <$> w2 !! i.
Proof.
  intros E. destruct (w2 !! i) as [t2|] eqn:H2.
  - destruct (SameTiles_Some w1 w2 i t2 E H2) as (t1 & -> & Ec).
    destruct (Clear_eq t1 t2 Ec) as (Ety & _ & _ & _ & Eset).
    cbn [fmap option_fmap option_map]. unfold Settled.
    rewrite Ety, (FieldOf_SameTiles FieldFormula root w1 w2 i t1 t2 E Ec), Eset. reflexivity.
  - rewrite (SameTiles_None w1 w2 i E H2). reflexivity.
Qed.

Lemma Strength_SameTiles root (w1 w2 : list (Tile F)) i :
  SameTiles w1 w2 -> Tracked root w1 i = Tracked root w2 i.
Proof.
  intros E. unfold Strength. destruct (w2 !! i) as [t2|] eqn:H2.
  - destruct (SameTiles_Some w1 w2 i t2 E H2) as (t1 & -> & Ec).
    destruct (Clear_eq t1 t2 Ec) as (Ety & _).
    rewrite Ety, (FieldOf_SameTiles FieldFormula root w1 w2 i t1 t2 E Ec). reflexivity.
  - rewrite (SameTiles_None w1 w2 i E H2). reflexivity.
Qed.

Lemma Query_SameTiles (w1 w2 : list (Tile F)) i :
  SameTiles w1 w2 -> Query w1 i = Query w2 i.
Proof.
  intros E. unfold Query. destruct (w2 !! i) as [t2|] eqn:H2.
  - destruct (SameTiles_Some w1 w2 i t2 E H2) as (t1 & -> & Ec).
    destruct (Clear_eq t1 t2 Ec) as (Ety & Eloc & _). rewrite Ety, Eloc. reflexivity.
  - rewrite (SameTiles_None w1 w2 i E H2). reflexivity.
Qed.

End SameWorlds.

(** ** The life of a generator *)

Section Lifetimes.
Context {F : Type} `{FloatOps F}.
Variable SplitThreshold : nat.
Variable MinimumSize : F.
Variable MaximumDepth : nat.
Variable Magnitude : Vector2f F -> F.
Variable FieldFormula : F -> F -> Vector2f F -> Vector2f F.

Local Abbreviation Tree := (BuiltTree SplitThreshold MinimumSize MaximumDepth).
Local Abbreviation Do :=
  (Perform SplitThreshold MinimumSize MaximumDepth Magnitude FieldFormula).

Lemma Perform_rootNode (g : TiledWorldGenerator F) op :
  rootNode (Do g op) =
  match op with CallCalculateField => Some (Tree g) | _ => rootNode g end.
Proof.
  destruct op; simpl; [apply Generate_size | apply Pass_rootNode | reflexivity..].
Qed.

Lemma Perform_fold_rootNode ops (g : TiledWorldGenerator F) :
  is_Some (rootNode (fold_left Do ops g)) <->
  is_Some (rootNode g) \/ In CallCalculateField ops.
Proof.
  revert g. induction ops as [|op ops IH]; intros g; simpl; [tauto|].
  rewrite IH, Perform_rootNode. destruct op; split;
    try (intros [?|?]; [left | right; right]; assumption);
    try (intros [?|[?|?]]; [left; assumption | discriminate | right; assumption]).
  - intros _. right. now left.
  - intros _. left. eauto.
Qed.
End Lifetimes.

(** * The field pass, claim by claim *)

Section Claims.
Context {F : Type} `{FloatOps F}.
Variable SplitThreshold : nat.
Variable MinimumSize : F.
Variable MaximumDepth : nat.
Variable Magnitude : Vector2f F -> F.
Variable FieldFormula : F -> F -> Vector2f F -> Vector2f F.

Local Abbreviation Tree := (BuiltTree SplitThreshold MinimumSize MaximumDepth).
Local Abbreviation Add := (AddObject SplitThreshold MinimumSize MaximumDepth).
Local Abbreviation Cands := (Candidates SplitThreshold MinimumSize MaximumDepth).
Local Abbreviation Contribs := (Contributors SplitThreshold MinimumSize MaximumDepth).
Local Abbreviation Summands :=
  (Contributions SplitThreshold MinimumSize MaximumDepth FieldFormula).
Local Abbreviation To := (CalculateFieldTo FieldFormula).
Local Abbreviation Run :=
  (CalculateField_calls SplitThreshold MinimumSize MaximumDepth Magnitude FieldFormula).
Local Abbreviation Pass :=
  (CalculateField SplitThreshold MinimumSize MaximumDepth Magnitude FieldFormula).
Local Abbreviation Life :=
  (Lifetime SplitThreshold MinimumSize MaximumDepth Magnitude FieldFormula).

(** C1, as amended.  A pass does not look at the type of a candidate.  The
    field it leaves in a tile that is not an obstacle is the sum, from
    [Vector2f::Zero] and in candidate order, of one contribution for each of
    the candidates that the tree returns for the position of the tile, the
    tile itself excepted; a candidate that is an obstacle is one of the
    contributors, and its contribution one of the summands. *)
Theorem obstacle_candidates_contribute g cur t :
  world g !! cur = Some t -> Type_ t <> ettObstructed ->
  world (Pass g) !! cur = Some (setField t (fold_left vadd (Summands g cur t) Zero)) /\
  Forall2 (fun q v => exists other, world g !! q = Some other /\ v = To other t)
          (Contribs g cur t) (Summands g cur t) /\
  (forall q, In q (Contribs g cur t) <-> In q (Cands g t) /\ q <> cur) /\
  forall q other,
    In q (Cands g t) -> q <> cur -> world g !! q = Some other ->
    Type_ other = ettObstructed ->
    In q (Contribs g cur t) /\ In (To other t) (Summands g cur t).
Proof.
  intros Ht Hty. split; [apply Pass_field; assumption|].
  split; [apply Contributions_Contributors|].
  split; [intros q; apply Contributors_spec|].
  intros q other Hq Hne Ho _.
  assert (In q (Contribs g cur t)) as Hg by (apply Contributors_spec; auto).
  split; [exact Hg | eapply Contributions_spec; eassumption].
Qed.


(** C4.  The field that a pass leaves in a tile that is not an obstacle has
    no contribution of the tile itself: the contributors are the candidates
    other than the pointer of the tile.  The comparison is of pointers: a
    different tile with all its members equal, its position among them, that
    the tree returns is a contributor, and its contribution is one of the
    summands. *)
Theorem no_contribution_from_itself g cur t :
  world g !! cur = Some t -> Type_ t <> ettObstructed ->
  ~ In cur (Contribs g cur t) /\
  world (Pass g) !! cur = Some (setField t (fold_left vadd (Summands g cur t) Zero)) /\
  forall q,
    q <> cur -> world g !! q = Some t -> In q (Cands g t) ->
    In q (Contribs g cur t) /\ In (To t t) (Summands g cur t).
Proof.
  intros Ht Hty. split; [|split].
  - rewrite Contributors_spec. tauto.
  - apply Pass_field; assumption.
  - intros q Hne Hq Hin.
    assert (In q (Contribs g cur t)) as Hg by (apply Contributors_spec; auto).
    split; [exact Hg | eapply Contributions_spec; eassumption].
Qed.

(** C6.  In a world that [Generate] has made, every point that a pass asks
    the tree for lies in the box from (0,0) to ([Length], [Width]) that the
    root of the pass covers.  The conversion from [int] to [float] takes 0
    to zero and keeps the order of the indices of the grid. *)
Theorem queries_lie_in_world_bounds g s point :
  f_of_int 0 = f_zero ->
  (forall a b, (0 <= a <= b)%Z -> (b <= Z.max (Length g) (Width g))%Z ->
               f_le (f_of_int a) (f_of_int b) = true) ->
  In (CallFindTiles point) (snd (Run (fst (Generate g s)))) ->
  Bounds (Tree (fst (Generate g s))) = WorldBounds (fst (Generate g s)) /\
  Contains (WorldBounds (fst (Generate g s))) point = true.
Proof.
  intros Hzero Hmono Hcall. split; [apply Tree_Bounds|].
  rewrite Run_calls in Hcall. destruct Hcall as [Hcall|Hcall]; [discriminate|].
  apply in_app_or in Hcall. destruct Hcall as [Hcall|Hcall].
  { apply in_map_iff in Hcall. destruct Hcall as (p & Hp & _). discriminate. }
  apply in_map_iff in Hcall. destruct Hcall as (pt & Hpt & Hq). injection Hpt as ->.
  destruct (Queries_spec _ _ Hq) as (i & t & Ht & _ & ->).
  destruct (Generate_size g s) as (Hl & Hw & _).
  apply OnGrid_Contains; [exact Hzero | rewrite Hl, Hw; exact Hmono |].
  apply Generate_OnGrid, list_elem_of_In, list_elem_of_lookup. eauto.
Qed.

(** C7.  On an empty world the tree of a pass is the fresh root, an empty
    leaf over the world bounds, into which nothing is inserted; a query of it
    returns no candidate, whatever the point.  The pass makes the one call
    that constructs the root, leaves the world empty and
    [largestFieldStrength] zero. *)
Theorem empty_world_pass (g : TiledWorldGenerator F) :
  world g = [] ->
  Tree g = Leaf (WorldBounds g) 0 [] /\
  (forall point, FindTiles (Tree g) point = []) /\
  Run g =
    (mkGenerator (Length g) (Width g) (TilePalette g) (Some (Tree g)) [] f_zero (ShowField g),
     [CallNew Zero (mkVector2f (f_of_int (Length g)) (f_of_int (Width g))) None 0]) /\
  (forall point, ReturnSelectedNode (Pass g) point = Some []).
Proof.
  intros Hw.
  assert (Tree g = Leaf (WorldBounds g) 0 []) as Ht
    by (unfold BuiltTree; rewrite Hw; reflexivity).
  split; [exact Ht|]. split; [intros point; rewrite Ht; reflexivity|].
  assert (Run g =
    (mkGenerator (Length g) (Width g) (TilePalette g) (Some (Tree g)) [] f_zero (ShowField g),
     [CallNew Zero (mkVector2f (f_of_int (Length g)) (f_of_int (Width g))) None 0])) as Hr.
  { rewrite Ht. unfold CalculateField_calls. rewrite Hw. reflexivity. }
  split; [exact Hr|]. intros point. unfold CalculateField, ReturnSelectedNode.
  rewrite Hr, Ht. reflexivity.
Qed.

(** C8.  The calls of a pass on the tree, in order: the construction of a
    root over the world bounds, at depth 0 and without a parent; one
    insertion for every tile of the world, the tile at position [i] of the
    world by the call at position [i + 1]; then one query for every tile
    that is not an obstacle, at its position, in the order of the world.
    So every tile of the world is inserted before the first query, no
    insertion follows a query, and the only construction comes first.  The
    tree in [rootNode] after the pass is the fresh root with all the tiles
    inserted, and nothing of the pass depends on the [rootNode] of
    before. *)
Theorem build_then_query (g : TiledWorldGenerator F) :
  snd (Run g) =
    CallNew Zero (mkVector2f (f_of_int (Length g)) (f_of_int (Width g))) None 0
      :: map CallAddObject (seq 0 (length (world g)))
      ++ map CallFindTiles
           (Location <$> filter (fun t => Type_ t <> ettObstructed) (world g)) /\
  (forall i, i < length (world g) -> snd (Run g) !! S i = Some (CallAddObject i)) /\
  (forall j point,
     snd (Run g) !! j = Some (CallFindTiles point) -> length (world g) < j) /\
  (forall i j tile point,
     snd (Run g) !! i = Some (CallAddObject tile) ->
     snd (Run g) !! j = Some (CallFindTiles point) -> i < j) /\
  (forall i a b parent depth,
     snd (Run g) !! i = Some (CallNew a b parent depth) -> i = 0) /\
  rootNode (Pass g) =
    Some (fold_left (Add (world g)) (seq 0 (length (world g)))
                    (Leaf (WorldBounds g) 0 [])) /\
  (forall root,
     Run (mkGenerator (Length g) (Width g) (TilePalette g) root (world g)
            (largestFieldStrength g) (ShowField g)) = Run g).
Proof.
  pose proof (Run_calls SplitThreshold MinimumSize MaximumDepth Magnitude FieldFormula g) as Hc.
  rewrite Queries_filter in Hc. unfold Pointers in Hc.
  split; [exact Hc|]. rewrite Hc.
  set (adds := map CallAddObject (seq 0 (length (world g)))).
  set (finds := map CallFindTiles
                  (Location <$> filter (fun t => Type_ t <> ettObstructed) (world g))).
  assert (length adds = length (world g)) as Hlen
    by (unfold adds; rewrite length_map, length_seq; reflexivity).
  assert (forall k c, adds !! k = Some c -> exists tile, c = CallAddObject tile) as Hadds.
  { intros k c Hk. apply list_elem_of_lookup_2, list_elem_of_In, in_map_iff in Hk.
    destruct Hk as (tile & <- & _). eauto. }
  assert (forall k c, finds !! k = Some c -> exists point, c = CallFindTiles point) as Hfinds.
  { intros k c Hk. apply list_elem_of_lookup_2, list_elem_of_In, in_map_iff in Hk.
    destruct Hk as (point & <- & _). eauto. }
  assert (forall k c, (adds ++ finds) !! k = Some c ->
            (k < length adds /\ exists tile, c = CallAddObject tile) \/
            (length adds <= k /\ exists point, c = CallFindTiles point)) as Hboth.
  { intros k c Hk. apply lookup_app_Some in Hk. destruct Hk as [Hk|[Hge Hk]].
    - left. split; [eapply lookup_lt_Some, Hk | eapply Hadds, Hk].
    - right. split; [exact Hge | eapply Hfinds, Hk]. }
  split; [|split; [|split; [|split; [|split]]]].
  - intros i Hi. change ((adds ++ finds) !! i = Some (CallAddObject (F:=F) i)).
    rewrite lookup_app_l by lia.
    unfold adds. change (map CallAddObject (seq 0 (length (world g))))
      with (@CallAddObject F <$> seq 0 (length (world g))).
    rewrite list_lookup_fmap, lookup_seq_lt by exact Hi. reflexivity.
  - intros [|j] point Hj; [discriminate|]. cbn [lookup list_lookup] in Hj.
    destruct (Hboth j _ Hj) as [[_ [tl Htl]]|[Hjl _]]; [discriminate|]. lia.
  - intros [|i] [|j] tile point Hi Hj; try discriminate.
    cbn [lookup list_lookup] in Hi, Hj.
    destruct (Hboth i _ Hi) as [[Hil _]|[_ [pt Hpt]]]; [|discriminate].
    destruct (Hboth j _ Hj) as [[_ [tl Htl]]|[Hjl _]]; [discriminate|]. lia.
  - intros [|i] a b parent depth Hi; [reflexivity|].
    cbn [lookup list_lookup] in Hi.
    destruct (Hboth i _ Hi) as [[_ [tl Htl]]|[_ [pt Hpt]]]; discriminate.
  - apply Pass_rootNode.
  - intros root. reflexivity.
Qed.

(** C9.  Two passes over worlds of the same dimensions that hold the same
    tiles (the same types, positions, strengths and ranges, in the same
    order; the fields before the pass, the largest field strength and the
    tree of before may differ) leave the same field in every tile, the same
    largest field strength and the same tree, and make the same calls.  So a
    second pass over the same world leaves what the first has left. *)
Theorem CalculateField_is_deterministic (g1 g2 : TiledWorldGenerator F) :
  Length g1 = Length g2 -> Width g1 = Width g2 -> SameTiles (world g1) (world g2) ->
  world (Pass g1) = world (Pass g2) /\
  largestFieldStrength (Pass g1) = largestFieldStrength (Pass g2) /\
  rootNode (Pass g1) = rootNode (Pass g2) /\
  snd (Run g1) = snd (Run g2) /\
  world (Pass (Pass g1)) = world (Pass g1) /\
  largestFieldStrength (Pass (Pass g1)) = largestFieldStrength (Pass g1).
Proof.
  assert (forall a b : TiledWorldGenerator F,
            Length a = Length b -> Width a = Width b -> SameTiles (world a) (world b) ->
            world (Pass a) = world (Pass b) /\
            largestFieldStrength (Pass a) = largestFieldStrength (Pass b) /\
            rootNode (Pass a) = rootNode (Pass b) /\
            snd (Run a) = snd (Run b)) as Hsame.
  { intros a b Hl Hw E.
    pose proof (BuiltTree_SameTiles SplitThreshold MinimumSize MaximumDepth a b Hl Hw E) as Ht.
    pose proof (SameTiles_length _ _ E) as Hlen.
    split; [|split; [|split]].
    - apply list_eq. intros i. rewrite !Pass_world, Ht. apply Settled_SameTiles, E.
    - rewrite !Pass_largest, Ht. unfold Pointers. rewrite Hlen. f_equal.
      apply flat_map_agree. intros i _. apply Strength_SameTiles, E.
    - rewrite !Pass_rootNode, Ht. reflexivity.
    - rewrite !Run_calls. unfold Queries, Pointers. rewrite Hl, Hw, Hlen. do 3 f_equal.
      apply flat_map_agree. intros i _. apply Query_SameTiles, E. }
  intros Hl Hw E. destruct (Hsame g1 g2 Hl Hw E) as (H1 & H2 & H3 & H4).
  repeat split; try assumption.
  - apply Hsame; [apply Pass_size.. | apply Pass_SameTiles].
  - apply Hsame; [apply Pass_size.. | apply Pass_SameTiles].
Qed.

(** C10.  The constructor leaves [rootNode] uninitialised, and only
    [CalculateField] assigns it.  So, whatever a client has done with a
    generator since its construction, [ReturnSelectedNode] dereferences an
    initialised [rootNode], and returns, exactly when a call of
    [CalculateField] is among what the client has done. *)
Theorem ReturnSelectedNode_needs_a_pass (indeterminate : F) ops target :
  rootNode (NewGenerator indeterminate) = None /\
  (is_Some (ReturnSelectedNode (Life indeterminate ops) target) <->
   In CallCalculateField ops).
Proof.
  split; [reflexivity|].
  assert (is_Some (ReturnSelectedNode (Life indeterminate ops) target) <->
          is_Some (rootNode (Life indeterminate ops))) as ->.
  { unfold ReturnSelectedNode.
    destruct (rootNode _); split; intros [x Hx]; eauto; discriminate. }
  unfold Lifetime. rewrite Perform_fold_rootNode. simpl. split; [|auto].
  intros [[x Hx]|Hin]; [discriminate | exact Hin].
Qed.
End Claims.

Section OrderedClaims.
Context {F : Type} `{!FloatOps F} `{!FloatOrder F}.
Variable SplitThreshold : nat.
Variable MinimumSize : F.
Variable MaximumDepth : nat.
Variable Magnitude : Vector2f F -> F.
Variable FieldFormula : F -> F -> Vector2f F -> Vector2f F.

Local Abbreviation Tree := (BuiltTree SplitThreshold MinimumSize MaximumDepth).
Local Abbreviation Cands := (Candidates SplitThreshold MinimumSize MaximumDepth).
Local Abbreviation Pass :=
  (CalculateField SplitThreshold MinimumSize MaximumDepth Magnitude FieldFormula).


Context `{!FloatHalving F}.

End OrderedClaims.

(** * Instances of the claims *)

(** The scenario of §8 on the modelled tree: with a split threshold of 2 the
    four corners force one split, into four children of one tile each, and a
    query of the centre, which lies on the edge of all four, returns the tile
    of the first. *)
Lemma four_corners_split_once :
  BuiltTree 2 0%Z 8 Corners =
    Quad (WorldBounds Corners) 0
         (Leaf (Quadrant0 (WorldBounds Corners)) 1 [0])
         (Leaf (Quadrant1 (WorldBounds Corners)) 1 [1])
         (Leaf (Quadrant2 (WorldBounds Corners)) 1 [2])
         (Leaf (Quadrant3 (WorldBounds Corners)) 1 [3]) /\
  FindTiles (BuiltTree 2 0%Z 8 Corners) (mkVector2f 5 5)%Z = [0].
Proof. split; reflexivity. Qed.

(** C1 against the claim as it stands: in the world of a free tile beside an
    obstacle, the obstacle is the one contributor of the free tile, and the
    field that the pass leaves in the free tile is the contribution of the
    obstacle, (-4, 0), where a sum over the candidates that are not obstacles
    is zero. *)
Lemma obstacle_contributes_in_sample :
  world FreeBesideObstacle !! 0 = Some FreeTile32 /\
  world FreeBesideObstacle !! 1 = Some Obstacle32 /\
  Type_ Obstacle32 = ettObstructed /\
  SampleContributors32 FreeBesideObstacle 0 = Some [1] /\
  world (SamplePass32 FreeBesideObstacle) !! 0 =
    Some (setField FreeTile32 (mkVector2f (float32 (-4)) (float32 0))) /\
  mkVector2f (float32 (-4)) (float32 0) <> (Zero : Vector2f binary32).
Proof. repeat split; try reflexivity. discriminate. Qed.

(** C1 at the free tile beside the obstacle. *)
Lemma obstacle_candidates_contribute_witness :
  world (SamplePass32 FreeBesideObstacle) !! 0 =
    Some (setField FreeTile32
            (fold_left vadd
               (Contributions 4 (float32 1) 8 Scaled32 FreeBesideObstacle 0 FreeTile32)
               Zero)) /\
  In 1 (Contributors 4 (float32 1) 8 FreeBesideObstacle 0 FreeTile32) /\
  In (CalculateFieldTo Scaled32 Obstacle32 FreeTile32)
     (Contributions 4 (float32 1) 8 Scaled32 FreeBesideObstacle 0 FreeTile32).
Proof.
  destruct (obstacle_candidates_contribute 4 (float32 1) 8 Magnitude32 Scaled32
              FreeBesideObstacle 0 FreeTile32 eq_refl) as (Hfield & _ & _ & Hobstacle).
  - discriminate.
  - split; [exact Hfield|]. apply (Hobstacle 1 Obstacle32).
    + vm_compute. right. left. reflexivity.
    + lia.
    + reflexivity.
    + reflexivity.
Defined.





(** C4 at the first twin: it is not among its own contributors, the second
    twin is. *)
Lemma no_contribution_from_itself_witness :
  world Twins !! 0 = Some TwinZ /\ world Twins !! 1 = Some TwinZ /\
  ~ In 0 (Contributors 1 1%Z 8 Twins 0 TwinZ) /\
  In 1 (Contributors 1 1%Z 8 Twins 0 TwinZ) /\
  In (CalculateFieldTo ScaledZ TwinZ TwinZ) (Contributions 1 1%Z 8 ScaledZ Twins 0 TwinZ).
Proof.
  split; [reflexivity|]. split; [reflexivity|].
  destruct (no_contribution_from_itself 1 1%Z 8 MagnitudeZ ScaledZ Twins 0 TwinZ eq_refl)
    as (Hself & _ & Htwin).
  - discriminate.
  - split; [exact Hself|]. apply (Htwin 1).
    + lia.
    + reflexivity.
    + vm_compute. right. left. reflexivity.
Defined.



(** The conversion to binary32 keeps the order of 0, 1 and 2. *)
Lemma float32_monotone_to_2 (a b : Z) :
  (0 <= a <= b)%Z -> (b <= 2)%Z -> f_le (float32 a) (float32 b) = true.
Proof.
  intros Ha Hb.
  assert (a = 0 \/ a = 1 \/ a = 2)%Z as Ea by lia.
  assert (b = 0 \/ b = 1 \/ b = 2)%Z as Eb by lia.
  destruct Ea as [-> | [-> | ->]], Eb as [-> | [-> | ->]]; solve [reflexivity | lia].
Qed.

(** C6 at the query for the tile at (1,0) of a generated 2 by 2 world, in
    binary32. *)
Lemma queries_lie_in_world_bounds_witness :
  In (CallFindTiles (mkVector2f (float32 1) (float32 0)))
     (snd (CalculateField_calls 4 (float32 1) 8 Magnitude32 Scaled32
             (fst (Generate SmallGenerator32 ZeroRand)))) /\
  Contains (WorldBounds (fst (Generate SmallGenerator32 ZeroRand)))
           (mkVector2f (float32 1) (float32 0)) = true.
Proof.
  assert (In (CallFindTiles (mkVector2f (float32 1) (float32 0)))
            (snd (CalculateField_calls 4 (float32 1) 8 Magnitude32 Scaled32
                    (fst (Generate SmallGenerator32 ZeroRand))))) as Hcall.
  { vm_compute. do 7 right. left. reflexivity. }
  split; [exact Hcall|].
  apply (queries_lie_in_world_bounds 4 (float32 1) 8 Magnitude32 Scaled32
           SmallGenerator32 ZeroRand);
    [reflexivity | exact float32_monotone_to_2 | exact Hcall].
Defined.

(** C7 at the generator as constructed, whose world is empty. *)
Lemma empty_world_pass_witness :
  world (NewGenerator 7%Z) = [] /\
  ReturnSelectedNode (SamplePassZ (NewGenerator 7%Z)) (mkVector2f 3 4)%Z = Some [] /\
  largestFieldStrength (SamplePassZ (NewGenerator 7%Z)) = 0%Z.
Proof.
  destruct (empty_world_pass 1 1%Z 8 MagnitudeZ ScaledZ (NewGenerator 7%Z) eq_refl)
    as (_ & _ & Hrun & Hquery).
  split; [reflexivity|]. split; [apply Hquery|].
  unfold SamplePassZ, CalculateField. rewrite Hrun. reflexivity.
Defined.

(** C8 at the free tile beside the obstacle: the root, the two tiles, and
    the one query, for the free tile. *)
Lemma build_then_query_witness :
  snd (CalculateField_calls 4 (float32 1) 8 Magnitude32 Scaled32 FreeBesideObstacle) =
    [CallNew Zero (mkVector2f (float32 2) (float32 2)) None 0;
     CallAddObject 0; CallAddObject 1;
     CallFindTiles (mkVector2f (float32 0) (float32 0))].
Proof.
  destruct (build_then_query 4 (float32 1) 8 Magnitude32 Scaled32 FreeBesideObstacle)
    as (Hcalls & _).
  exact Hcalls.
Defined.

(** C9 at the twins' world before and after other fields were written. *)
Lemma CalculateField_is_deterministic_witness :
  SameTiles (world Twins) (world TwinsLater) /\
  world Twins <> world TwinsLater /\
  world (SamplePassZ Twins) = world (SamplePassZ TwinsLater) /\
  largestFieldStrength (SamplePassZ Twins) = largestFieldStrength (SamplePassZ TwinsLater).
Proof.
  split; [reflexivity|]. split; [discriminate|].
  destruct (CalculateField_is_deterministic 1 1%Z 8 MagnitudeZ ScaledZ Twins TwinsLater
              eq_refl eq_refl eq_refl) as (Hworld & Hlargest & _).
  split; [exact Hworld | exact Hlargest].
Defined.

(** * The rest of the generator *)

(** ** Facts of generation and drawing *)

Section GenerationFacts.
Context {F : Type} `{FloatOps F}.

Lemma GenerateTile_cases palette first lengthIndex widthIndex (w : list (Tile F)) s :
  GenerateTile palette first lengthIndex widthIndex (w, s) =
  match Selected palette (Roll (Z.of_nat (s 0%nat))) with
  | Some a => (w ++ [TileOf a lengthIndex widthIndex], fun n => s (S n))
  | None =>
      (w ++ [TileOf (nth (Z.to_nat (Z.rem (Z.of_nat (s 1%nat)) (Z.of_nat (length palette))))
                         palette first) lengthIndex widthIndex],
       fun n => s (S (S n)))
  end.
Proof.
  unfold GenerateTile, Selected, Roll, rand. cbn [fst snd].
  destruct (find _ palette); reflexivity.
Qed.

Lemma fallback_in_palette (palette : list (AvailableTile.t F)) first (r : nat) :
  palette <> [] ->
  In (nth (Z.to_nat (Z.rem (Z.of_nat r) (Z.of_nat (length palette)))) palette first) palette.
Proof.
  intros Hp. apply nth_In.
  assert (0 < length palette)%nat by (destruct palette; [congruence | simpl; lia]).
  rewrite Z.rem_mod_nonneg by lia.
  pose proof (Z.mod_pos_bound (Z.of_nat r) (Z.of_nat (length palette))). lia.
Qed.

Lemma Selected_in_palette (palette : list (AvailableTile.t F)) roll a :
  Selected palette roll = Some a -> In a palette.
Proof. intros Hs. apply find_some in Hs. apply Hs. Qed.

(** One tile: an entry of the palette at the cell, for one or two random
    numbers. *)
Lemma GenerateTile_spec palette first lengthIndex widthIndex (w : list (Tile F)) s :
  palette <> [] ->
  exists a k s',
    GenerateTile palette first lengthIndex widthIndex (w, s)
      = (w ++ [TileOf a lengthIndex widthIndex], s') /\
    In a palette /\ (1 <= k <= 2)%nat /\ Drawn k s s'.
Proof.
  intros Hp. rewrite GenerateTile_cases.
  destruct (Selected palette _) as [a|] eqn:Hs.
  - exists a, 1%nat, (fun n => s (S n)). repeat split; [|lia..].
    eapply Selected_in_palette, Hs.
  - eexists _, 2%nat, (fun n => s (S (S n))). repeat split; [|lia..].
    apply fallback_in_palette, Hp.
Qed.

Lemma fold_left_flat_map {A B C} (f : A -> C -> A) (h : B -> list C) (l : list B) (a : A) :
  fold_left f (flat_map h l) a = fold_left (fun acc x => fold_left f (h x) acc) l a.
Proof.
  revert a. induction l as [|x l IH]; intros a; [reflexivity|].
  cbn [flat_map fold_left]. rewrite fold_left_app. apply IH.
Qed.

Lemma fold_left_fmap {A B C} (f : A -> C -> A) (h : B -> C) (l : list B) (a : A) :
  fold_left f (h <$> l) a = fold_left (fun acc x => f acc (h x)) l a.
Proof. revert a. induction l as [|x l IH]; intros a; [reflexivity|]. apply IH. Qed.

(** The two loops of [GenerateWorld] are one loop over the cells. *)
Lemma GenerateWorld_Cells palette first length width (acc : list (Tile F) * RandState) :
  fold_left
    (fun acc lengthIndex =>
       fold_left (fun acc' widthIndex =>
                    GenerateTile palette first lengthIndex widthIndex acc')
                 (seq 0 width) acc)
    (seq 0 length) acc
  = fold_left (fun acc c => GenerateTile palette first (fst c) (snd c) acc)
              (Cells length width) acc.
Proof.
  unfold Cells. rewrite fold_left_flat_map. apply fold_left_agree.
  intros a lengthIndex _. rewrite fold_left_fmap. reflexivity.
Qed.

Lemma Cells_length length width : List.length (Cells length width) = (length * width)%nat.
Proof.
  unfold Cells. induction length as [|l IH]; [reflexivity|].
  rewrite seq_S, flat_map_app, length_app, IH. cbn [flat_map].
  rewrite app_nil_r, length_fmap, length_seq. lia.
Qed.

Lemma Cells_lookup length width lengthIndex widthIndex :
  (lengthIndex < length)%nat -> (widthIndex < width)%nat ->
  Cells length width !! (lengthIndex * width + widthIndex)%nat = Some (lengthIndex, widthIndex).
Proof.
  intros Hl Hw. induction length as [|l IH]; [lia|].
  unfold Cells. rewrite seq_S, flat_map_app. cbn [flat_map]. rewrite app_nil_r.
  fold (Cells l width).
  destruct (decide (lengthIndex < l)%nat) as [Hlt|Hge].
  - rewrite lookup_app_l; [apply IH, Hlt|]. rewrite Cells_length. nia.
  - assert (lengthIndex = l) as -> by lia.
    rewrite lookup_app_r by (rewrite Cells_length; lia).
    rewrite Cells_length. replace (l * width + widthIndex - l * width)%nat with widthIndex by lia.
    rewrite list_lookup_fmap, lookup_seq_lt by exact Hw. reflexivity.
Qed.

(** *** The loop over the cells *)

Lemma Drawn_compose k1 k2 (s s1 s2 : RandState) :
  Drawn k1 s s1 -> Drawn k2 s1 s2 -> Drawn (k1 + k2) s s2.
Proof.
  intros H1 H2 n. rewrite H2, H1. f_equal. lia.
Qed.

(** The loop over the cells: one tile for each, an entry of the palette at
    the cell, for one or two random numbers each. *)
Lemma GenerateCells_spec palette first cells (w : list (Tile F)) s :
  palette <> [] ->
  exists tiles k s',
    fold_left (fun acc c => GenerateTile palette first (fst c) (snd c) acc) cells (w, s)
      = (w ++ tiles, s') /\
    Forall2 (fun c t => exists a, In a palette /\ t = TileOf a (fst c) (snd c)) cells tiles /\
    (length cells <= k <= 2 * length cells)%nat /\ Drawn k s s'.
Proof.
  intros Hp. revert w s. induction cells as [|c cells IH]; intros w s.
  - exists [], 0%nat, s. rewrite app_nil_r. repeat split; [constructor | simpl; lia..].
  - cbn [fold_left].
    destruct (GenerateTile_spec palette first (fst c) (snd c) w s Hp)
      as (a & k1 & s1 & -> & Ha & Hk1 & Hd1).
    destruct (IH (w ++ [TileOf a (fst c) (snd c)]) s1) as (tiles & k2 & s2 & -> & Hall & Hk2 & Hd2).
    exists (TileOf a (fst c) (snd c) :: tiles), (k1 + k2)%nat, s2.
    rewrite <- app_assoc. repeat split; [| simpl; lia.. | eapply Drawn_compose; eassumption].
    constructor; [exists a; auto | exact Hall].
Qed.

(** The same loop when every roll selects an entry: one random number for
    each tile, the k-th for the k-th. *)
Lemma GenerateCells_selected palette first cells (w : list (Tile F)) s :
  (forall r : nat, is_Some (Selected palette (Roll (Z.of_nat r)))) ->
  exists tiles s',
    fold_left (fun acc c => GenerateTile palette first (fst c) (snd c) acc) cells (w, s)
      = (w ++ tiles, s') /\
    length tiles = length cells /\ Drawn (length cells) s s' /\
    forall k c, cells !! k = Some c ->
      exists a, Selected palette (Roll (Z.of_nat (s k))) = Some a /\
                tiles !! k = Some (TileOf a (fst c) (snd c)).
Proof.
  intros Hsel. revert w s. induction cells as [|c cells IH]; intros w s.
  - exists [], s. rewrite app_nil_r. repeat split. intros k c Hk. discriminate Hk.
  - cbn [fold_left]. rewrite GenerateTile_cases.
    destruct (Hsel (s 0%nat)) as [a Ha]. rewrite Ha. cbv beta iota.
    destruct (IH (w ++ [TileOf a (fst c) (snd c)]) (fun n => s (S n)))
      as (tiles & s' & Hfold & Hlen & Hd & Hk).
    exists (TileOf a (fst c) (snd c) :: tiles), s'.
    split; [etrans; [exact Hfold | rewrite <- app_assoc; reflexivity] |].
    repeat split; [simpl; lia | intros n; rewrite Hd; reflexivity |].
    intros [|k] c' Hc'.
    + injection Hc' as <-. exists a. split; [exact Ha | reflexivity].
    + apply (Hk k c' Hc').
Qed.

(** The same loop when no roll selects an entry: two random numbers for
    each tile, the second of which picks the entry. *)
Lemma GenerateCells_fallback palette first cells (w : list (Tile F)) s :
  (forall roll, Selected palette roll = None) ->
  exists tiles s',
    fold_left (fun acc c => GenerateTile palette first (fst c) (snd c) acc) cells (w, s)
      = (w ++ tiles, s') /\
    length tiles = length cells /\ Drawn (2 * length cells) s s' /\
    forall k c, cells !! k = Some c ->
      tiles !! k =
        Some (TileOf (nth (Z.to_nat (Z.rem (Z.of_nat (s (2 * k + 1)%nat))
                                           (Z.of_nat (length palette))))
                          palette first) (fst c) (snd c)).
Proof.
  intros Hsel. revert w s. induction cells as [|c cells IH]; intros w s.
  - exists [], s. rewrite app_nil_r. repeat split. intros k c Hk. discriminate Hk.
  - cbn [fold_left]. rewrite GenerateTile_cases, Hsel. cbv beta iota.
    match goal with |- context [w ++ [?t]] => set (t0 := t) end.
    destruct (IH (w ++ [t0]) (fun n => s (S (S n)))) as (tiles & s' & Hfold & Hlen & Hd & Hk).
    exists (t0 :: tiles), s'.
    split; [etrans; [exact Hfold | rewrite <- app_assoc; reflexivity] |].
    repeat split; [simpl; lia | intros n; rewrite Hd; f_equal; simpl; lia |].
    intros [|k] c' Hc'.
    + injection Hc' as <-. reflexivity.
    + etrans; [exact (Hk k c' Hc') |].
      replace (2 * S k + 1)%nat with (S (S (2 * k + 1))) by lia. reflexivity.
Qed.

Lemma GenerateWorld_unfold (g : TiledWorldGenerator F) s first rest :
  TilePalette g = first :: rest ->
  GenerateWorld g s =
    let '(w, s') :=
      fold_left (fun acc c => GenerateTile (TilePalette g) first (fst c) (snd c) acc)
                (Cells (Z.to_nat (Length g)) (Z.to_nat (Width g))) (world g, s) in
    (setWorld g w, s').
Proof.
  intros Hp. unfold GenerateWorld. rewrite Hp. rewrite GenerateWorld_Cells. reflexivity.
Qed.

Lemma SetThresholds_In frequencySum currentThreshold (palette : list (AvailableTile.t F)) a' :
  In a' (SetThresholds frequencySum currentThreshold palette) ->
  exists a, In a palette /\ Unset a' = Unset a.
Proof.
  revert currentThreshold. induction palette as [|a palette IH]; intros c Hin; [destruct Hin|].
  destruct Hin as [<-|Hin].
  - exists a. split; [left; reflexivity | reflexivity].
  - destruct (IH _ Hin) as (a0 & Ha0 & Heq). exists a0. split; [right; exact Ha0 | exact Heq].
Qed.

Lemma SetThresholds_SamePalette frequencySum currentThreshold (p : list (AvailableTile.t F)) :
  SamePalette (SetThresholds frequencySum currentThreshold p) p.
Proof.
  unfold SamePalette. revert currentThreshold.
  induction p as [|a p IH]; intros c; [reflexivity|].
  cbn [SetThresholds]. rewrite !fmap_cons. f_equal. apply IH.
Qed.

Lemma SamePalette_Frequency (p p0 : list (AvailableTile.t F)) :
  SamePalette p p0 -> AvailableTile.Frequency <$> p = AvailableTile.Frequency <$> p0.
Proof.
  unfold SamePalette. intros Hs.
  apply (f_equal (fmap AvailableTile.Frequency)) in Hs.
  rewrite <- !list_fmap_compose in Hs. exact Hs.
Qed.

Lemma FrequencySum_fmap (p : list (AvailableTile.t F)) z :
  fold_left (fun sum tile => (sum + AvailableTile.Frequency tile)%Z) p z
  = fold_left Z.add (AvailableTile.Frequency <$> p) z.
Proof. symmetry. apply fold_left_fmap. Qed.

(** The thresholds are computed from the frequencies alone. *)
Lemma SetThresholds_agree frequencySum currentThreshold (p p0 : list (AvailableTile.t F)) :
  SamePalette p p0 ->
  SetThresholds frequencySum currentThreshold p = SetThresholds frequencySum currentThreshold p0.
Proof.
  unfold SamePalette. revert p0 currentThreshold.
  induction p as [|a p IH]; intros [|a0 p0] c Hs; try discriminate Hs; [reflexivity|].
  rewrite !fmap_cons in Hs. apply (f_equal tail) in Hs as Hp.
  apply (f_equal head) in Hs as Ha. cbn in Hp, Ha.
  cbn [SetThresholds]. rewrite (IH p0 _ Hp).
  destruct a, a0. injection Ha as -> -> -> -> -> ->. reflexivity.
Qed.

Lemma NormaliseProbabilities_agree (g g0 : TiledWorldGenerator F) :
  SamePalette (TilePalette g) (TilePalette g0) ->
  TilePalette (NormaliseProbabilities g) = TilePalette (NormaliseProbabilities g0).
Proof.
  intros Hs. unfold NormaliseProbabilities. cbn [setPalette TilePalette].
  rewrite !FrequencySum_fmap, (SamePalette_Frequency _ _ Hs).
  apply SetThresholds_agree, Hs.
Qed.

(** *** [Generate] in closed form *)

Lemma CopyOf_Unset (a a0 : AvailableTile.t F) t :
  Unset a = Unset a0 -> CopyOf a t -> CopyOf a0 t.
Proof.
  destruct a, a0. unfold Unset, AvailableTile.setThreshold, CopyOf. cbn.
  intros E. injection E as -> -> -> -> -> ->. auto.
Qed.

Lemma NormaliseProbabilities_palette (g : TiledWorldGenerator F) :
  TilePalette (NormaliseProbabilities g) =
  SetThresholds (FrequencySum (TilePalette g)) f_zero (TilePalette g).
Proof. reflexivity. Qed.

Lemma SetThresholds_nil frequencySum currentThreshold (p : list (AvailableTile.t F)) :
  SetThresholds frequencySum currentThreshold p = [] <-> p = [].
Proof. destruct p; split; intros E; try reflexivity; discriminate E. Qed.

(** [Generate] in closed form: the members of the generator other than the
    world and the thresholds stay, the world is one tile for each cell. *)
Lemma Generate_spec (g : TiledWorldGenerator F) s :
  TilePalette g <> [] ->
  exists tiles k s',
    Generate g s = (setWorld (NormaliseProbabilities g) tiles, s') /\
    Forall2 (fun c t => exists a, In a (TilePalette g) /\ CopyOf a t /\
                                  Location t = mkVector2f (f_of_int (Z.of_nat (fst c)))
                                                          (f_of_int (Z.of_nat (snd c))))
            (Cells (Z.to_nat (Length g)) (Z.to_nat (Width g))) tiles /\
    (Z.to_nat (Length g) * Z.to_nat (Width g) <= k
       <= 2 * (Z.to_nat (Length g) * Z.to_nat (Width g)))%nat /\
    Drawn k s s'.
Proof.
  intros Hp. unfold Generate.
  destruct (TilePalette (ClearWorld (NormaliseProbabilities g))) as [|first rest] eqn:Hn.
  { apply SetThresholds_nil in Hn. contradiction. }
  rewrite (GenerateWorld_unfold _ s first rest Hn).
  assert (TilePalette (ClearWorld (NormaliseProbabilities g)) <> []) as Hne
    by (rewrite Hn; discriminate).
  destruct (GenerateCells_spec (TilePalette (ClearWorld (NormaliseProbabilities g))) first
              (Cells (Z.to_nat (Length g)) (Z.to_nat (Width g))) [] s Hne)
    as (tiles & k & s' & Hfold & Hall & Hk & Hd).
  exists tiles, k, s'. rewrite Cells_length in Hk.
  split; [|split; [|split; [exact Hk | exact Hd]]].
  - change (Length (ClearWorld (NormaliseProbabilities g))) with (Length g).
    change (Width (ClearWorld (NormaliseProbabilities g))) with (Width g).
    change (world (ClearWorld (NormaliseProbabilities g))) with (@nil (Tile F)).
    rewrite Hfold. reflexivity.
  - eapply Forall2_impl; [exact Hall|]. intros c t (a & Ha & ->).
    destruct (SetThresholds_In _ _ _ _ Ha) as (a0 & Ha0 & E).
    exists a0. split; [exact Ha0|]. split; [|reflexivity].
    apply (CopyOf_Unset a a0 _ E). repeat split.
Qed.

Lemma Generate_empty (g : TiledWorldGenerator F) s :
  TilePalette g = [] -> Generate g s = (setWorld g [], s).
Proof.
  intros Hp. unfold Generate, GenerateWorld, NormaliseProbabilities, ClearWorld, setWorld,
    setPalette. cbn [TilePalette]. rewrite Hp. reflexivity.
Qed.

(** *** What [Generate] depends on *)

Lemma GenerateWorld_agree (g g0 : TiledWorldGenerator F) s :
  Length g0 = Length g -> Width g0 = Width g -> TilePalette g0 = TilePalette g ->
  world g0 = world g ->
  world (fst (GenerateWorld g0 s)) = world (fst (GenerateWorld g s)) /\
  TilePalette (fst (GenerateWorld g0 s)) = TilePalette (fst (GenerateWorld g s)) /\
  snd (GenerateWorld g0 s) = snd (GenerateWorld g s).
Proof.
  intros Hl Hw Hp Hwd. unfold GenerateWorld. rewrite Hl, Hw, Hp, Hwd.
  destruct (TilePalette g) as [|first rest] eqn:Hg; [cbn [fst snd]; rewrite Hg; auto|].
  destruct (fold_left _ _ _) as [w s']. cbn [fst snd world TilePalette setWorld].
  rewrite Hp, Hg. auto.
Qed.

Lemma NormaliseProbabilities_idem (g : TiledWorldGenerator F) :
  NormaliseProbabilities (NormaliseProbabilities g) = NormaliseProbabilities g.
Proof.
  pose proof (NormaliseProbabilities_agree (NormaliseProbabilities g) g) as E.
  unfold NormaliseProbabilities at 1. unfold setPalette.
  change (SetThresholds _ _ _)
    with (TilePalette (NormaliseProbabilities (NormaliseProbabilities g))).
  rewrite E by apply SetThresholds_SamePalette. reflexivity.
Qed.

(** *** Palettes by position *)

Lemma SamePalette_lookup (p p0 : list (AvailableTile.t F)) i a :
  SamePalette p p0 -> p !! i = Some a -> exists a0, p0 !! i = Some a0 /\ Unset a = Unset a0.
Proof.
  unfold SamePalette. intros E Ha.
  assert ((Unset <$> p0) !! i = Some (Unset a)) as E0
    by (rewrite <- E, list_lookup_fmap, Ha; reflexivity).
  rewrite list_lookup_fmap in E0. destruct (p0 !! i) as [a0|]; [|discriminate E0].
  exists a0. split; [reflexivity|]. cbn in E0. congruence.
Qed.

Lemma SamePalette_length (p p0 : list (AvailableTile.t F)) :
  SamePalette p p0 -> length p = length p0.
Proof.
  unfold SamePalette. intros E. apply (f_equal length) in E.
  rewrite !length_fmap in E. exact E.
Qed.

(** [Generate] as the loop over the cells of the normalised palette. *)
Lemma Generate_unfold (g : TiledWorldGenerator F) s first rest :
  TilePalette (NormaliseProbabilities g) = first :: rest ->
  Generate g s =
    let '(w, s') :=
      fold_left (fun acc c => GenerateTile (TilePalette (NormaliseProbabilities g)) first
                                           (fst c) (snd c) acc)
                (Cells (Z.to_nat (Length g)) (Z.to_nat (Width g))) ([], s) in
    (setWorld (NormaliseProbabilities g) w, s').
Proof.
  intros Hn. unfold Generate.
  rewrite (GenerateWorld_unfold (ClearWorld (NormaliseProbabilities g)) s first rest Hn).
  reflexivity.
Qed.

Lemma fallback_lookup (palette : list (AvailableTile.t F)) first (r : nat) :
  palette <> [] ->
  palette !! (r mod length palette)%nat =
  Some (nth (Z.to_nat (Z.rem (Z.of_nat r) (Z.of_nat (length palette)))) palette first).
Proof.
  intros Hp.
  assert (0 < length palette)%nat by (destruct palette; [congruence | simpl; lia]).
  rewrite Z.rem_mod_nonneg by lia. rewrite <- Nat2Z.inj_mod, Nat2Z.id.
  destruct (lookup_lt_is_Some_2 palette (r mod length palette)) as [x Hx];
    [apply Nat.mod_upper_bound; lia|].
  rewrite Hx. f_equal. symmetry. eapply nth_lookup_Some, Hx.
Qed.

End GenerationFacts.

(** *** Generation in binary32 *)

Lemma SFadd_nan (x : binary32) : f_add x S754_nan = S754_nan.
Proof. destruct x; reflexivity. Qed.

Lemma SFleb_nan (x : binary32) : f_le x S754_nan = false.
Proof. destruct x; reflexivity. Qed.

Lemma FrequencySum_zero (p : list (AvailableTile.t binary32)) :
  (forall a, In a p -> AvailableTile.Frequency a = 0%Z) -> FrequencySum p = 0%Z.
Proof.
  unfold FrequencySum. generalize 0%Z at 2 3 as z. 
  induction p as [|a p IH]; intros z Hz; [reflexivity|].
  cbn [fold_left]. rewrite (Hz a) by (left; reflexivity). rewrite Z.add_0_r.
  apply IH. intros a' Ha'. apply Hz. right. exact Ha'.
Qed.

(** Frequencies that are all zero make every share 0/0, and every
    threshold NaN. *)
Lemma SetThresholds_nan currentThreshold (p : list (AvailableTile.t binary32)) a :
  (forall e, In e p -> AvailableTile.Frequency e = 0%Z) ->
  In a (SetThresholds 0 currentThreshold p) -> AvailableTile.Threshold a = S754_nan.
Proof.
  revert currentThreshold. induction p as [|e p IH]; intros c Hz Ha; [destruct Ha|].
  cbn [SetThresholds] in Ha. rewrite (Hz e) in Ha by (left; reflexivity).
  change (f_div (f_of_int 0) (f_of_int 0)) with (S754_nan : binary32) in Ha.
  rewrite SFadd_nan in Ha. destruct Ha as [<-|Ha]; [reflexivity|].
  apply (IH S754_nan); [|exact Ha]. intros e' He'. apply Hz. right. exact He'.
Qed.

Lemma Selected_nan (p : list (AvailableTile.t binary32)) roll :
  (forall a, In a p -> AvailableTile.Threshold a = S754_nan) -> Selected p roll = None.
Proof.
  intros Hn. unfold Selected. induction p as [|a p IH]; [reflexivity|].
  cbn [find]. rewrite (Hn a) by (left; reflexivity). rewrite SFleb_nan.
  apply IH. intros a' Ha'. apply Hn. right. exact Ha'.
Qed.

(** The entry of the palette of the constructor that each of the 101 rolls
    selects. *)
Lemma ConstructorPalette_Selected (r : nat) :
  exists a, Selected ConstructorPalette (Roll (Z.of_nat r)) = Some a /\
            AvailableTile.Type_ a = Rolled (Z.of_nat r mod 101).
Proof.
  assert (forallb (fun n : nat =>
            match Selected ConstructorPalette
                    (f_div (f_of_int (Z.of_nat n)) (f_of_int 100)) with
            | Some a => bool_decide (AvailableTile.Type_ a = Rolled (Z.of_nat n))
            | None => false
            end) (seq 0 101) = true) as Hall by (vm_compute; reflexivity).
  rewrite forallb_forall in Hall.
  pose proof (Z.mod_pos_bound (Z.of_nat r) 101 ltac:(lia)) as Hb.
  specialize (Hall (Z.to_nat (Z.of_nat r mod 101))).
  rewrite Z2Nat.id in Hall by lia. unfold Roll. rewrite Z.rem_mod_nonneg by lia.
  destruct (Selected ConstructorPalette _) as [a|].
  - exists a. split; [reflexivity|]. eapply bool_decide_eq_true_1, Hall.
    apply in_seq. lia.
  - discriminate Hall. apply in_seq. lia.
Qed.

Section DrawingFacts.
Context {F : Type} `{FloatOps F} `{DrawOps F}.
Variable Normalised : Vector2f F -> Vector2f F.

(** Without the field colours the rectangle of a tile is made of its
    location and its colour. *)
Lemma DrawTile_plain (g g0 : TiledWorldGenerator F) cellSize startPoint (t t0 : Tile F) :
  ShowField g && f_gt (largestFieldStrength g) f_zero = false ->
  ShowField g0 && f_gt (largestFieldStrength g0) f_zero = false ->
  Clear t = Clear t0 ->
  DrawTile Normalised g cellSize startPoint t = DrawTile Normalised g0 cellSize startPoint t0.
Proof.
  intros Hg Hg0 E. unfold DrawTile. rewrite Hg, Hg0.
  destruct t, t0. unfold Clear, setField in E. cbn in E.
  injection E as -> -> -> -> ->. reflexivity.
Qed.

Lemma DrawWorld_plain (window : Window F) (g g0 : TiledWorldGenerator F) :
  ShowField g && f_gt (largestFieldStrength g) f_zero = false ->
  ShowField g0 && f_gt (largestFieldStrength g0) f_zero = false ->
  Length g = Length g0 -> Width g = Width g0 -> SameTiles (world g) (world g0) ->
  DrawWorld Normalised window g = DrawWorld Normalised window g0.
Proof.
  intros Hg Hg0 Hl Hw Hsame. unfold DrawWorld, CellSize.
  rewrite (SameTiles_length _ _ Hsame), Hl, Hw.
  destruct (decide (length (world g0) = 0%nat)); [reflexivity|].
  destruct (f_to_int _) as [cellSize|]; [|reflexivity]. f_equal.
  apply list_eq. intros i. rewrite !list_lookup_fmap.
  pose proof (SameTiles_lookup _ _ i Hsame) as El.
  destruct (world g !! i) as [t|], (world g0 !! i) as [t0|]; try discriminate El;
    [|reflexivity].
  cbn in El |- *. f_equal. apply DrawTile_plain; [exact Hg | exact Hg0 | congruence].
Qed.

(** The early out of line 111. *)
Lemma DrawWorld_empty (window : Window F) (g : TiledWorldGenerator F) :
  world g = [] -> DrawWorld Normalised window g = Some [].
Proof. intros Hw. unfold DrawWorld. rewrite Hw. reflexivity. Qed.

End DrawingFacts.

Section ObstacleFacts.
Context {F : Type} `{FloatOps F}.
Variable SplitThreshold : nat.
Variable MinimumSize : F.
Variable MaximumDepth : nat.
Variable Magnitude : Vector2f F -> F.
Variable FieldFormula : F -> F -> Vector2f F -> Vector2f F.

(** A pass over obstacles tracks no field strength. *)
Lemma Pass_largest_obstacles (g : TiledWorldGenerator F) :
  (forall t, In t (world g) -> Type_ t = ettObstructed) ->
  largestFieldStrength
    (CalculateField SplitThreshold MinimumSize MaximumDepth Magnitude FieldFormula g)
  = f_zero.
Proof.
  intros Hobs. rewrite Pass_largest.
  assert (forall l : list nat,
            flat_map (Strength Magnitude FieldFormula
                        (BuiltTree SplitThreshold MinimumSize MaximumDepth g) (world g)) l
            = []) as ->; [|reflexivity].
  induction l as [|i l IH]; [reflexivity|]. cbn [flat_map]. rewrite IH, app_nil_r.
  unfold Strength. destruct (world g !! i) as [t|] eqn:Ht; [|reflexivity].
  rewrite decide_True; [reflexivity|].
  apply Hobs. eapply list_elem_of_In, list_elem_of_lookup_2, Ht.
Qed.

End ObstacleFacts.

(** The quotient by zero is an infinity or NaN, which no [int] is the
    conversion of. *)
Lemma SFto_int_div_zero (x : binary32) : f_to_int (f_div x (f_of_int 0)) = None.
Proof. destruct x as [s | s | | s m e]; try destruct s; reflexivity. Qed.

(** ** Properties of generation and drawing *)

(** X1. [Generate] fills the grid row by row.  For dimensions that can be
    reserved and a palette that is not empty, the world after [Generate]
    holds one tile for each cell ([lengthIndex], [widthIndex]) with
    [0 <= lengthIndex < Length] and [0 <= widthIndex < Width], and no other,
    whatever it held before: max([Length], 0) times max([Width], 0) tiles,
    which is none when a dimension is zero or negative.  The tile of the
    cell is at position [lengthIndex * Width + widthIndex], is located at
    ((float) [lengthIndex], (float) [widthIndex]), and has the type, the
    colour, the field strength and the field range of an entry of the
    palette. *)
Theorem Generate_fills_the_grid {F : Type} `{FloatOps F} (g : TiledWorldGenerator F)
    (s : RandState) :
  Reservable g -> TilePalette g <> [] ->
  length (world (fst (Generate g s))) = (Z.to_nat (Length g) * Z.to_nat (Width g))%nat /\
  forall lengthIndex widthIndex : Z,
    (0 <= lengthIndex < Length g)%Z -> (0 <= widthIndex < Width g)%Z ->
    exists t a,
      world (fst (Generate g s)) !! Z.to_nat (lengthIndex * Width g + widthIndex) = Some t /\
      Location t = mkVector2f (f_of_int lengthIndex) (f_of_int widthIndex) /\
      In a (TilePalette g) /\ CopyOf a t.
Proof.
  intros _ Hp. destruct (Generate_spec g s Hp) as (tiles & k & s' & -> & Hall & _ & _).
  cbn [fst world setWorld]. split.
  - rewrite <- (Forall2_length _ _ _ Hall). apply Cells_length.
  - intros lengthIndex widthIndex Hl Hw.
    pose proof (Cells_lookup (Z.to_nat (Length g)) (Z.to_nat (Width g))
                  (Z.to_nat lengthIndex) (Z.to_nat widthIndex)) as Hc.
    destruct (Forall2_lookup_l _ _ _ _ _ Hall (Hc ltac:(lia) ltac:(lia)))
      as (t & Ht & a & Ha & Hcopy & Hloc).
    exists t, a. cbn [fst snd] in Hloc. rewrite !Z2Nat.id in Hloc by lia.
    replace (Z.to_nat (lengthIndex * Width g + widthIndex))
      with (Z.to_nat lengthIndex * Z.to_nat (Width g) + Z.to_nat widthIndex)%nat by nia.
    auto.
Qed.

(** X1 in the 2 by 2 world of the constructor's palette: four tiles, the
    last of them at (1, 1). *)
Lemma Generate_fills_the_grid_witness :
  length (world (fst (Generate SmallGenerator32 CountingRand))) = 4%nat /\
  exists t a,
    world (fst (Generate SmallGenerator32 CountingRand)) !! 3%nat = Some t /\
    Location t = mkVector2f (float32 1) (float32 1) /\
    In a (TilePalette SmallGenerator32) /\ CopyOf a t.
Proof.
  destruct (Generate_fills_the_grid SmallGenerator32 CountingRand) as [Hlen Hcell].
  - vm_compute. split; discriminate.
  - vm_compute. discriminate.
  - split; [exact Hlen|]. apply (Hcell 1 1)%Z; simpl; lia.
Defined.

(** X2. For dimensions that can be reserved, [GenerateWorld] pushes onto
    the world it finds: the tiles that are there stay where they are, and
    max([Length], 0) times max([Width], 0) tiles follow them, one for each
    cell, or none when the palette is empty. *)
Theorem GenerateWorld_keeps_the_world {F : Type} `{FloatOps F} (g : TiledWorldGenerator F)
    (s : RandState) :
  Reservable g ->
  exists tiles,
    world (fst (GenerateWorld g s)) = world g ++ tiles /\
    length tiles = match TilePalette g with
                   | [] => 0%nat
                   | _ :: _ => (Z.to_nat (Length g) * Z.to_nat (Width g))%nat
                   end.
Proof.
  intros _. destruct (TilePalette g) as [|first rest] eqn:Hp.
  - exists []. unfold GenerateWorld. rewrite Hp, app_nil_r. split; reflexivity.
  - rewrite (GenerateWorld_unfold g s first rest Hp).
    destruct (GenerateCells_spec (TilePalette g) first
                (Cells (Z.to_nat (Length g)) (Z.to_nat (Width g))) (world g) s)
      as (tiles & k & s' & -> & Hall & _ & _); [rewrite Hp; discriminate|].
    exists tiles. split; [reflexivity|].
    rewrite <- (Forall2_length _ _ _ Hall). apply Cells_length.
Qed.

(** X2 where the world holds a free tile and the palette is the one of the
    constructor: four tiles follow the free tile. *)
Lemma GenerateWorld_keeps_the_world_witness :
  exists tiles,
    world (fst (GenerateWorld (setWorld SmallGenerator32 [FreeTile32]) CountingRand))
      = [FreeTile32] ++ tiles /\
    length tiles = 4%nat.
Proof.
  apply (GenerateWorld_keeps_the_world (setWorld SmallGenerator32 [FreeTile32]) CountingRand).
  vm_compute. split; discriminate.
Defined.

(** X3. [Generate] calls [rand()] at least once and at most twice for each
    tile it makes: with [n] tiles made, the C library generator is left
    where some number of calls between [n] and [2 n] takes it. *)
Theorem Generate_draws_once_or_twice_a_tile {F : Type} `{FloatOps F} (g : TiledWorldGenerator F)
    (s : RandState) :
  Reservable g -> TilePalette g <> [] ->
  exists k,
    (length (world (fst (Generate g s))) <= k
       <= 2 * length (world (fst (Generate g s))))%nat /\
    Drawn k s (snd (Generate g s)).
Proof.
  intros _ Hp. destruct (Generate_spec g s Hp) as (tiles & k & s' & -> & Hall & Hk & Hd).
  exists k. split; [|exact Hd]. cbn [fst world setWorld].
  rewrite <- (Forall2_length _ _ _ Hall), Cells_length. exact Hk.
Qed.

(** X3 in the 2 by 2 world of the constructor's palette. *)
Lemma Generate_draws_once_or_twice_a_tile_witness :
  exists k,
    (length (world (fst (Generate SmallGenerator32 CountingRand))) <= k
       <= 2 * length (world (fst (Generate SmallGenerator32 CountingRand))))%nat /\
    Drawn k CountingRand (snd (Generate SmallGenerator32 CountingRand)).
Proof.
  apply (Generate_draws_once_or_twice_a_tile SmallGenerator32 CountingRand).
  - vm_compute. split; discriminate.
  - vm_compute. discriminate.
Defined.

(** X4. With an empty palette [Generate] deletes the world and makes no
    tile, for any [Length] and [Width], and calls [rand()] not once. *)
Theorem Generate_with_an_empty_palette {F : Type} `{FloatOps F} (g : TiledWorldGenerator F)
    (s : RandState) :
  TilePalette g = [] -> Generate g s = (setWorld g [], s).
Proof.
  apply Generate_empty.
Qed.

(** X4 where the world holds two tiles and the palette is empty. *)
Lemma Generate_with_an_empty_palette_witness :
  world FreeBesideObstacle = [FreeTile32; Obstacle32] /\
  Generate FreeBesideObstacle CountingRand = (setWorld FreeBesideObstacle [], CountingRand).
Proof.
  split; [reflexivity|].
  apply (Generate_with_an_empty_palette FreeBesideObstacle CountingRand). reflexivity.
Defined.

(** X5. [Generate] writes the world and the thresholds of the palette and
    nothing else.  It writes neither [rootNode] nor [largestFieldStrength]:
    after it [ReturnSelectedNode] answers as before, from the tree that was
    built of the tiles that [Generate] deleted; the dimensions and
    [ShowField] are as they were, and the palette is the one that
    [NormaliseProbabilities] leaves. *)
Theorem Generate_leaves_the_tree {F : Type} `{FloatOps F} (g : TiledWorldGenerator F)
    (s : RandState) :
  Reservable g ->
  rootNode (fst (Generate g s)) = rootNode g /\
  (forall target, ReturnSelectedNode (fst (Generate g s)) target = ReturnSelectedNode g target) /\
  largestFieldStrength (fst (Generate g s)) = largestFieldStrength g /\
  Length (fst (Generate g s)) = Length g /\ Width (fst (Generate g s)) = Width g /\
  ShowField (fst (Generate g s)) = ShowField g /\
  TilePalette (fst (Generate g s)) = TilePalette (NormaliseProbabilities g).
Proof.
  intros _. destruct (TilePalette g) as [|first rest] eqn:Hp.
  - rewrite (Generate_empty g s Hp). repeat split.
    unfold NormaliseProbabilities. cbn [fst TilePalette setWorld setPalette].
    rewrite Hp. reflexivity.
  - destruct (Generate_spec g s) as (tiles & k & s' & -> & _); [rewrite Hp; discriminate|].
    repeat split.
Qed.

(** X5 after a pass over the free tile and the obstacle: [Generate] leaves
    no tile, and [ReturnSelectedNode] still returns the two pointers. *)
Lemma Generate_leaves_the_tree_witness :
  world (fst (Generate (SamplePass32 FreeBesideObstacle) CountingRand)) = [] /\
  ReturnSelectedNode (SamplePass32 FreeBesideObstacle) (mkVector2f (float32 0) (float32 0))
    = Some [0%nat; 1%nat] /\
  ReturnSelectedNode (fst (Generate (SamplePass32 FreeBesideObstacle) CountingRand))
                     (mkVector2f (float32 0) (float32 0))
    = ReturnSelectedNode (SamplePass32 FreeBesideObstacle) (mkVector2f (float32 0) (float32 0)).
Proof.
  split; [reflexivity|]. split; [reflexivity|].
  apply (Generate_leaves_the_tree (SamplePass32 FreeBesideObstacle) CountingRand).
  vm_compute. split; discriminate.
Defined.

(** X6. The world that [Generate] makes depends on [Length], [Width], the
    entries of the palette apart from their thresholds, and the random
    numbers, and on nothing else: not on the world, the thresholds, the
    tree or the largest field strength that the generator held. *)
Theorem Generate_forgets_the_past {F : Type} `{FloatOps F} (g g0 : TiledWorldGenerator F)
    (s : RandState) :
  Reservable g -> Length g0 = Length g -> Width g0 = Width g ->
  SamePalette (TilePalette g0) (TilePalette g) ->
  world (fst (Generate g0 s)) = world (fst (Generate g s)) /\
  TilePalette (fst (Generate g0 s)) = TilePalette (fst (Generate g s)) /\
  snd (Generate g0 s) = snd (Generate g s).
Proof.
  intros _ Hl Hw Hp. unfold Generate. apply GenerateWorld_agree; [exact Hl | exact Hw | |].
  - apply (NormaliseProbabilities_agree g0 g Hp).
  - reflexivity.
Qed.

(** X6 at the 2 by 2 generator before and after a generation and a pass. *)
Lemma Generate_forgets_the_past_witness :
  world (SamplePass32 (fst (Generate SmallGenerator32 ZeroRand))) <> world SmallGenerator32 /\
  world (fst (Generate (SamplePass32 (fst (Generate SmallGenerator32 ZeroRand))) CountingRand))
    = world (fst (Generate SmallGenerator32 CountingRand)).
Proof.
  split; [vm_compute; discriminate|].
  apply (Generate_forgets_the_past SmallGenerator32
           (SamplePass32 (fst (Generate SmallGenerator32 ZeroRand))) CountingRand).
  - vm_compute. split; discriminate.
  - reflexivity.
  - reflexivity.
  - vm_compute. reflexivity.
Defined.

(** X7. [NormaliseProbabilities] writes the thresholds and nothing else,
    and the thresholds it writes do not depend on the ones it finds: two
    palettes that differ in their thresholds only are equal after it, and
    a second call changes nothing. *)
Theorem NormaliseProbabilities_writes_thresholds_only {F : Type} `{FloatOps F}
    (g : TiledWorldGenerator F) :
  SamePalette (TilePalette (NormaliseProbabilities g)) (TilePalette g) /\
  (forall g0, SamePalette (TilePalette g0) (TilePalette g) ->
              TilePalette (NormaliseProbabilities g0) = TilePalette (NormaliseProbabilities g)) /\
  NormaliseProbabilities (NormaliseProbabilities g) = NormaliseProbabilities g /\
  Length (NormaliseProbabilities g) = Length g /\
  Width (NormaliseProbabilities g) = Width g /\
  rootNode (NormaliseProbabilities g) = rootNode g /\
  world (NormaliseProbabilities g) = world g /\
  largestFieldStrength (NormaliseProbabilities g) = largestFieldStrength g /\
  ShowField (NormaliseProbabilities g) = ShowField g.
Proof.
  split; [apply SetThresholds_SamePalette|].
  split; [intros g0; apply NormaliseProbabilities_agree|].
  split; [apply NormaliseProbabilities_idem|]. repeat split.
Qed.

(** X9. [CalculateField] writes [rootNode], [largestFieldStrength] and the
    field of the tiles, and nothing else: the dimensions, the palette and
    [ShowField] stay, and the world holds as many tiles as before, each
    with its type, colour, location, field strength and field range. *)
Theorem CalculateField_writes_fields_only {F : Type} `{FloatOps F}
    (SplitThreshold : nat) (MinimumSize : F) (MaximumDepth : nat)
    (Magnitude : Vector2f F -> F) (FieldFormula : F -> F -> Vector2f F -> Vector2f F)
    (g : TiledWorldGenerator F) :
  let g' := CalculateField SplitThreshold MinimumSize MaximumDepth Magnitude FieldFormula g in
  Length g' = Length g /\ Width g' = Width g /\
  TilePalette g' = TilePalette g /\ ShowField g' = ShowField g /\
  length (world g') = length (world g) /\
  forall i t, world g !! i = Some t ->
    exists t', world g' !! i = Some t' /\
      Type_ t' = Type_ t /\ Colour t' = Colour t /\ Location t' = Location t /\
      FieldStrength t' = FieldStrength t /\ FieldRange t' = FieldRange t.
Proof.
  intros g'. subst g'.
  pose proof (Pass_SameTiles SplitThreshold MinimumSize MaximumDepth Magnitude FieldFormula g)
    as Hsame.
  unfold CalculateField in *.
  destruct (CalculateField_calls_spec SplitThreshold MinimumSize MaximumDepth
              Magnitude FieldFormula g) as (w' & Hrun & _).
  rewrite Hrun in *. cbn [fst Length Width TilePalette ShowField world] in *.
  repeat split.
  - apply SameTiles_length, Hsame.
  - intros i t Ht. destruct (SameTiles_Some _ _ i t Hsame Ht) as (t' & Ht' & E).
    exists t'. split; [exact Ht'|].
    destruct t, t'. unfold Clear, setField in E. cbn in E.
    injection E as -> -> -> -> ->. repeat split.
Qed.

(** X10. When [ShowField] is not set, a pass changes nothing of what
    [DrawWorld] draws: the rectangles and their colours are the ones of
    before the pass, for every window (and the drawing is undefined after
    the pass where it was before). *)
Theorem DrawWorld_without_ShowField {F : Type} `{FloatOps F} `{DrawOps F}
    (SplitThreshold : nat) (MinimumSize : F) (MaximumDepth : nat)
    (Magnitude : Vector2f F -> F) (FieldFormula : F -> F -> Vector2f F -> Vector2f F)
    (Normalised : Vector2f F -> Vector2f F) (window : Window F) (g : TiledWorldGenerator F) :
  ShowField g = false ->
  DrawWorld Normalised window
    (CalculateField SplitThreshold MinimumSize MaximumDepth Magnitude FieldFormula g)
  = DrawWorld Normalised window g.
Proof.
  intros Hshow.
  pose proof (Pass_SameTiles SplitThreshold MinimumSize MaximumDepth Magnitude FieldFormula g)
    as Hsame.
  destruct (Pass_size SplitThreshold MinimumSize MaximumDepth Magnitude FieldFormula g)
    as [Hl Hw].
  apply DrawWorld_plain; [| rewrite Hshow; reflexivity | exact Hl | exact Hw | exact Hsame].
  unfold CalculateField.
  destruct (CalculateField_calls_spec SplitThreshold MinimumSize MaximumDepth
              Magnitude FieldFormula g) as (w' & -> & _).
  cbn [fst ShowField]. rewrite Hshow. reflexivity.
Qed.

(** X10 at the free tile beside the obstacle, whose field the pass changes. *)
Lemma DrawWorld_without_ShowField_witness :
  world (SamplePass32 FreeBesideObstacle) <> world FreeBesideObstacle /\
  DrawWorld Normalised32 SampleWindow32 (SamplePass32 FreeBesideObstacle)
    = DrawWorld Normalised32 SampleWindow32 FreeBesideObstacle.
Proof.
  split; [vm_compute; discriminate|].
  apply (DrawWorld_without_ShowField 4 (float32 1) 8 Magnitude32 Scaled32 Normalised32
           SampleWindow32 FreeBesideObstacle).
  reflexivity.
Defined.

(** ** In binary32 *)

(** X11. In binary32, a palette whose frequencies are all zero gets NaN for
    every threshold (the share of each entry is 0/0), so that no roll
    selects an entry: [Generate] then calls [rand()] twice for each tile,
    and the tile at position [k] copies the entry
    [TilePalette[rand() % TilePalette.size()]] of the second call. *)
Theorem zero_frequencies_leave_the_choice_to_rand
    (g : TiledWorldGenerator binary32) (s : RandState) :
  Reservable g -> TilePalette g <> [] ->
  (forall a, In a (TilePalette g) -> AvailableTile.Frequency a = 0%Z) ->
  (forall a, In a (TilePalette (NormaliseProbabilities g)) ->
             AvailableTile.Threshold a = S754_nan) /\
  (forall roll, Selected (TilePalette (NormaliseProbabilities g)) roll = None) /\
  Drawn (2 * length (world (fst (Generate g s)))) s (snd (Generate g s)) /\
  forall k t, world (fst (Generate g s)) !! k = Some t ->
    exists a, TilePalette g !! (s (2 * k + 1)%nat mod length (TilePalette g))%nat = Some a /\
              CopyOf a t.
Proof.
  intros _ Hp Hz.
  assert (forall a, In a (TilePalette (NormaliseProbabilities g)) ->
                    AvailableTile.Threshold a = S754_nan) as Hnan.
  { intros a. rewrite NormaliseProbabilities_palette, (FrequencySum_zero _ Hz).
    apply SetThresholds_nan, Hz. }
  assert (forall roll, Selected (TilePalette (NormaliseProbabilities g)) roll = None) as Hsel
    by (intros roll; apply Selected_nan, Hnan).
  split; [exact Hnan|]. split; [exact Hsel|].
  destruct (TilePalette (NormaliseProbabilities g)) as [|first rest] eqn:Hn.
  { apply SetThresholds_nil in Hn. contradiction. }
  rewrite (Generate_unfold g s first rest Hn). rewrite Hn. rewrite <- Hn in Hsel.
  destruct (GenerateCells_fallback (TilePalette (NormaliseProbabilities g)) first
              (Cells (Z.to_nat (Length g)) (Z.to_nat (Width g))) [] s Hsel)
    as (tiles & s' & Hfold & Hlen & Hd & Hk).
  rewrite Hn in Hfold. rewrite Hfold. cbn [fst snd world setWorld app].
  rewrite Hlen. split; [exact Hd|]. intros k t Ht.
  destruct (lookup_lt_is_Some_2 (Cells (Z.to_nat (Length g)) (Z.to_nat (Width g))) k)
    as [c Hc]; [rewrite <- Hlen; eapply lookup_lt_Some, Ht|].
  rewrite (Hk k c Hc) in Ht. injection Ht as <-.
  assert (TilePalette (NormaliseProbabilities g) <> []) as Hne by (rewrite Hn; discriminate).
  pose proof (fallback_lookup (TilePalette (NormaliseProbabilities g)) first
                (s (2 * k + 1)%nat) Hne) as Hnth.
  destruct (SamePalette_lookup _ (TilePalette g) _ _
              (SetThresholds_SamePalette _ _ _) Hnth) as (a & Ha & E).
  rewrite (SamePalette_length (TilePalette (NormaliseProbabilities g)) (TilePalette g)
             (SetThresholds_SamePalette _ _ _)) in Ha.
  exists a. split; [exact Ha|]. apply (CopyOf_Unset _ a _ E). repeat split.
Qed.

(** X11 at a palette of two entries: four tiles for eight random numbers,
    the first tile from the number 85, which picks the entry 1. *)
Lemma zero_frequencies_leave_the_choice_to_rand_witness :
  (forall roll, Selected (TilePalette (NormaliseProbabilities ZeroFrequencies32)) roll = None) /\
  Drawn 8 CountingRand (snd (Generate ZeroFrequencies32 CountingRand)) /\
  Type_ <$> world (fst (Generate ZeroFrequencies32 CountingRand)) !! 0%nat = Some ettObstructed.
Proof.
  destruct (zero_frequencies_leave_the_choice_to_rand ZeroFrequencies32 CountingRand)
    as (_ & Hsel & Hd & _).
  - vm_compute. split; discriminate.
  - vm_compute. discriminate.
  - intros a [<- | [<- | []]]; reflexivity.
  - split; [exact Hsel|]. split; [exact Hd | reflexivity].
Defined.

(** X12. In binary32, with the four entries of the constructor as the
    palette, every roll selects an entry, so that [Generate] calls [rand()]
    once for each tile, and the type of the tile at position [k] follows
    from the remainder by 101 of the [k]-th random number: free up to 85,
    obstructed from 86 to 95, undesirable from 96 to 99, desirable at 100. *)
Theorem constructor_palette_rolls (g : TiledWorldGenerator binary32) (s : RandState) :
  Reservable g ->
  SamePalette (TilePalette g) (TilePalette (NewGenerator (f_zero : binary32))) ->
  Drawn (length (world (fst (Generate g s)))) s (snd (Generate g s)) /\
  forall k t, world (fst (Generate g s)) !! k = Some t ->
              Type_ t = Rolled (Z.of_nat (s k) mod 101).
Proof.
  intros _ Hp.
  assert (TilePalette (NormaliseProbabilities g) = ConstructorPalette) as Hn
    by (rewrite (NormaliseProbabilities_agree g _ Hp); reflexivity).
  assert (forall r : nat, is_Some (Selected (TilePalette (NormaliseProbabilities g))
                                            (Roll (Z.of_nat r)))) as Hsel.
  { intros r. rewrite Hn. destruct (ConstructorPalette_Selected r) as (a & -> & _). eauto. }
  destruct (TilePalette (NormaliseProbabilities g)) as [|first rest] eqn:Hfirst;
    [discriminate Hn|].
  rewrite (Generate_unfold g s first rest Hfirst). rewrite Hfirst. rewrite <- Hfirst in Hsel.
  destruct (GenerateCells_selected (TilePalette (NormaliseProbabilities g)) first
              (Cells (Z.to_nat (Length g)) (Z.to_nat (Width g))) [] s Hsel)
    as (tiles & s' & Hfold & Hlen & Hd & Hk).
  rewrite Hfirst in Hfold. rewrite Hfold. cbn [fst snd world setWorld app].
  rewrite Hlen. split; [exact Hd|]. intros k t Ht.
  destruct (lookup_lt_is_Some_2 (Cells (Z.to_nat (Length g)) (Z.to_nat (Width g))) k)
    as [c Hc]; [rewrite <- Hlen; eapply lookup_lt_Some, Ht|].
  destruct (Hk k c Hc) as (a & Ha & Ht'). rewrite Ht' in Ht. injection Ht as <-.
  rewrite Hfirst, Hn in Ha.
  destruct (ConstructorPalette_Selected (s k)) as (a' & Ha' & Hty).
  rewrite Ha in Ha'. injection Ha' as <-. exact Hty.
Qed.

(** X12 at the generator as constructed, whatever its members that the
    constructor leaves indeterminate hold, and in the 2 by 2 world, where
    the random numbers 84, 85, 86 and 87 make two free tiles and two
    obstacles. *)
Lemma constructor_palette_rolls_witness :
  (forall k t,
     world (fst (Generate (NewGenerator (S754_nan : binary32)) CountingRand)) !! k = Some t ->
     Type_ t = Rolled (Z.of_nat (CountingRand k) mod 101)) /\
  Type_ <$> world (fst (Generate SmallGenerator32 CountingRand))
    = [ettFree; ettFree; ettObstructed; ettObstructed].
Proof.
  split; [|reflexivity].
  apply (constructor_palette_rolls (NewGenerator (S754_nan : binary32)) CountingRand).
  - unfold Reservable. simpl. lia.
  - reflexivity.
Defined.

(** X13. In binary32, after a pass over a world of obstacles only the
    largest field strength is zero, and [DrawWorld] paints every tile in its
    own colour, also when [ShowField] is set and whatever the largest field
    strength was before the pass. *)
Theorem DrawWorld_after_a_pass_over_obstacles
    (SplitThreshold : nat) (MinimumSize : binary32) (MaximumDepth : nat)
    (Magnitude : Vector2f binary32 -> binary32)
    (FieldFormula : binary32 -> binary32 -> Vector2f binary32 -> Vector2f binary32)
    (Normalised : Vector2f binary32 -> Vector2f binary32)
    (window : Window binary32) (g : TiledWorldGenerator binary32)
    (rects : list (RectFilled binary32)) :
  (forall t, In t (world g) -> Type_ t = ettObstructed) ->
  DrawWorld Normalised window
    (CalculateField SplitThreshold MinimumSize MaximumDepth Magnitude FieldFormula g)
  = Some rects ->
  largestFieldStrength
    (CalculateField SplitThreshold MinimumSize MaximumDepth Magnitude FieldFormula g)
  = f_zero /\
  col <$> rects = (fun t => PaletteColour (Colour t)) <$> world g.
Proof.
  intros Hobs Hdraw.
  assert (largestFieldStrength
            (CalculateField SplitThreshold MinimumSize MaximumDepth Magnitude FieldFormula g)
          = f_zero) as Hlargest
    by (apply Pass_largest_obstacles, Hobs).
  split; [exact Hlargest|].
  pose proof (Pass_SameTiles SplitThreshold MinimumSize MaximumDepth Magnitude FieldFormula g)
    as Hsame.
  unfold DrawWorld in Hdraw.
  destruct (decide (length (world (CalculateField SplitThreshold MinimumSize MaximumDepth
                                     Magnitude FieldFormula g)) = 0%nat)) as [Hempty|_].
  - injection Hdraw as <-. rewrite (SameTiles_length _ _ Hsame) in Hempty.
    apply length_zero_iff_nil in Hempty. rewrite Hempty. reflexivity.
  - destruct (CellSize window _) as [cellSize|]; [|discriminate Hdraw].
    injection Hdraw as <-. rewrite <- list_fmap_compose.
    apply list_eq. intros i. rewrite !list_lookup_fmap.
    pose proof (SameTiles_lookup _ _ i Hsame) as El.
    destruct (world (CalculateField _ _ _ _ _ g) !! i) as [t'|], (world g !! i) as [t|];
      try discriminate El; [|reflexivity].
    cbn in El |- *. f_equal. unfold DrawTile. cbn [col]. rewrite Hlargest.
    change (f_gt (f_zero : binary32) f_zero) with false. rewrite andb_false_r.
    f_equal. assert (Clear t' = Clear t) as E by congruence.
    apply (f_equal Colour) in E. exact E.
Qed.

(** X13 at the obstacle alone, with [ShowField] set and a largest field
    strength of 3 from before. *)
Lemma DrawWorld_after_a_pass_over_obstacles_witness :
  ShowField ShownObstacle = true /\ largestFieldStrength ShownObstacle = float32 3 /\
  largestFieldStrength (SamplePass32 ShownObstacle) = f_zero /\
  exists rects,
    DrawWorld Normalised32 SampleWindow32 (SamplePass32 ShownObstacle) = Some rects /\
    col <$> rects = [PaletteColour (81, 0, 0)%Z].
Proof.
  split; [reflexivity|]. split; [reflexivity|].
  assert (exists rects,
            DrawWorld Normalised32 SampleWindow32 (SamplePass32 ShownObstacle) = Some rects)
    as [rects Hrects] by (eexists; vm_compute; reflexivity).
  destruct (DrawWorld_after_a_pass_over_obstacles 4 (float32 1) 8 Magnitude32 Scaled32
              Normalised32 SampleWindow32 ShownObstacle rects) as [Hlargest Hcol].
  - intros t [<- | []]. reflexivity.
  - exact Hrects.
  - split; [exact Hlargest|]. exists rects. split; [exact Hrects | exact Hcol].
Defined.

(** X14. In binary32, when [Length] and [Width] are zero, [DrawWorld] is
    defined for the empty world only, of which it draws nothing: it returns
    before it computes the cell size.  For any other world both quotients of
    line 119 are infinite or NaN, and so is the smaller of them, which has
    no conversion to [int]. *)
Theorem DrawWorld_without_dimensions (Normalised : Vector2f binary32 -> Vector2f binary32)
    (window : Window binary32) (g : TiledWorldGenerator binary32) :
  Length g = 0%Z -> Width g = 0%Z ->
  DrawWorld Normalised window g = match world g with
                                  | [] => Some []
                                  | _ :: _ => None
                                  end.
Proof.
  intros Hl Hwd. destruct (world g) as [|t w] eqn:Hw; [apply DrawWorld_empty, Hw|].
  unfold DrawWorld. rewrite Hw. cbn [length]. rewrite decide_False by discriminate.
  unfold CellSize, std_min. rewrite Hl, Hwd.
  destruct (f_lt _ _); rewrite SFto_int_div_zero; reflexivity.
Qed.

(** X14 without a world, and at a free tile. *)
Lemma DrawWorld_without_dimensions_witness :
  DrawWorld Normalised32 SampleWindow32 NoWorld32 = Some [] /\
  DrawWorld Normalised32 SampleWindow32 NoRoom32 = None.
Proof.
  split.
  - apply (DrawWorld_without_dimensions Normalised32 SampleWindow32 NoWorld32); reflexivity.
  - apply (DrawWorld_without_dimensions Normalised32 SampleWindow32 NoRoom32); reflexivity.
Defined.
